(** * N-gram frequency tables and probability estimators of keyboard_suggestion

    Shallow embedding of the two Python pipelines of the repository:
    - [amazigh/pipeline.py]: [clean_text], [build_ngrams], Counter tables,
      Laplace-smoothed negative log-probabilities ([calculate_probabilities],
      called Policy A below) and [process_corpus];
    - [ngrams_tp.py]: FreqDist tables, unsmoothed conditional probabilities
      ([calculate_probabilities], Policy B) and the driver over configured
      language files ([read_sentences_file], [process_language], main loop).

    Tokens are strings; a gram (Python tuple) is a list of tokens; a Counter
    or dict is an association list in insertion order with unique keys.
    Python floats are modelled exactly: probabilities as rationals [Q],
    [-log] as the real [- ln]. *)

From Stdlib Require Import String List Arith Lia ZArith QArith Qreals Reals Lra.
From Stdlib Require Import Permutation Sorted.
Import ListNotations.
Open Scope nat_scope.

(* ------------------------------------------------------------------ *)
(** ** Association lists used as Python dicts / Counters *)

Section Dict.
Variable K : Type.
Variable K_eq_dec : forall x y : K, {x = y} + {x <> y}.

(** [d.get(k)] *)
Fixpoint get {V : Type} (d : list (K * V)) (k : K) : option V :=
  match d with
  | [] => None
  | (k', v) :: r => if K_eq_dec k' k then Some v else get r k
  end.

(** [d.get(k, 0)] / [d[k] if k in d else 0] *)
Definition get_default (d : list (K * nat)) (k : K) : nat :=
  match get d k with Some v => v | None => 0 end.

(** [self[elem] = self.get(elem, 0) + 1] of [Counter.update] *)
Fixpoint counter_add (c : list (K * nat)) (x : K) : list (K * nat) :=
  match c with
  | [] => [(x, 1)]
  | (k, v) :: r => if K_eq_dec k x then (k, S v) :: r else (k, v) :: counter_add r x
  end.

(** [Counter.update(iterable)]: one [counter_add] per element, in order. *)
Definition counter_update (c : list (K * nat)) (xs : list K) : list (K * nat) :=
  fold_left counter_add xs c.

(** [Counter(iterable)] and [FreqDist(iterable)] *)
Definition Counter (xs : list K) : list (K * nat) := counter_update [] xs.

(** [sum(d.values())] *)
Definition sum_values (d : list (K * nat)) : nat :=
  fold_right (fun kv acc => snd kv + acc) 0 d.
End Dict.

Arguments get {K} K_eq_dec {V} d k.
Arguments get_default {K} K_eq_dec d k.
Arguments counter_add {K} K_eq_dec c x.
Arguments counter_update {K} K_eq_dec c xs.
Arguments Counter {K} K_eq_dec xs.
Arguments sum_values {K} d.

(* ------------------------------------------------------------------ *)
(** ** Tokens and grams *)

Definition token := string.
Definition gram := list token.

Definition gram_eq_dec : forall x y : gram, {x = y} + {x <> y} :=
  list_eq_dec string_dec.

Definition table := list (gram * nat).

(** Python slice [xs[i:j]] for [0 <= i], [0 <= j]. *)
Definition slice {A : Type} (xs : list A) (i j : nat) : list A :=
  firstn (j - i) (skipn i xs).

(** [build_ngrams(tokens, n)] of pipeline.py:
    [for i in range(len(tokens) - n + 1): ngrams.append(tuple(tokens[i:i + n]))].
    The bound is computed in Z since Python's [range] of a negative number
    is empty. *)
Definition build_ngrams (tokens : list token) (n : nat) : list gram :=
  map (fun i => slice tokens i (i + n))
      (seq 0 (Z.to_nat (Z.of_nat (length tokens) - Z.of_nat n + 1))).

(** [ngram[:-1]] *)
Definition prefix (g : gram) : gram := removelast g.

(* ------------------------------------------------------------------ *)
(** ** Policy A: [calculate_probabilities] of amazigh/pipeline.py *)

Module PolicyA.

(** [prob = (count + 1) / (prefix_count + vocab_size)] *)
Definition prob (count prefix_count vocab_size : nat) : Q :=
  inject_Z (Z.of_nat (count + 1)) / inject_Z (Z.of_nat (prefix_count + vocab_size)).

(** [-log(prob)] *)
Definition score (p : Q) : R := (- ln (Q2R p))%R.

(** The loop body over [ngram_counts.items()]; [None] is the
    [ZeroDivisionError] raised when [prefix_count + vocab_size = 0]. *)
Fixpoint calc_items (items : table) (lower_counts : table) (vocab_size : nat)
  : option (list (gram * R)) :=
  match items with
  | [] => Some []
  | (ngram, count) :: r =>
      let prefix_count := get_default gram_eq_dec lower_counts (prefix ngram) in
      if Nat.eqb (prefix_count + vocab_size) 0 then None
      else match calc_items r lower_counts vocab_size with
           | None => None
           | Some ps => Some ((ngram, score (prob count prefix_count vocab_size)) :: ps)
           end
  end.

Definition calculate_probabilities (ngram_counts lower_counts : table)
  : option (list (gram * R)) :=
  calc_items ngram_counts lower_counts (length lower_counts).

(** [counts[n]] of [process_corpus]: [Counter().update(build_ngrams(tokens, n))]. *)
Definition counts (tokens : list token) (n : nat) : table :=
  counter_update gram_eq_dec [] (build_ngrams tokens n).

(** [probabilities[n]] of [process_corpus], [n] in [2..5]; the dict copy
    [{k: v for k, v in counts[n - 1].items()}] is the same table. *)
Definition probabilities (tokens : list token) (n : nat) : option (list (gram * R)) :=
  calculate_probabilities (counts tokens n) (counts tokens (n - 1)).

End PolicyA.

(* ------------------------------------------------------------------ *)
(** ** Policy B: [calculate_probabilities] and [process_language] of ngrams_tp.py *)

Module PolicyB.

(** [count / d if d > 0 else 0.0] *)
Definition div_or_zero (count d : nat) : Q :=
  if 0 <? d then inject_Z (Z.of_nat count) / inject_Z (Z.of_nat d) else 0%Q.

(** [calculate_probabilities(ngram_freq, prev_ngram_freq)] *)
Definition calculate_probabilities (ngram_freq prev_ngram_freq : table)
  : list (gram * Q) :=
  map (fun '(ngram, count) =>
         if 1 <? length ngram then
           let prev_count := get_default gram_eq_dec prev_ngram_freq (prefix ngram) in
           (ngram, div_or_zero count prev_count)
         else
           let total := sum_values ngram_freq in
           (ngram, div_or_zero count total))
      ngram_freq.

(** [unigrams = FreqDist(tokens)], keyed by the token itself. *)
Definition unigrams (tokens : list token) : list (token * nat) :=
  Counter string_dec tokens.

(** [FreqDist(list(bigrams(tokens)))], [FreqDist(list(trigrams(tokens)))],
    [FreqDist(list(ngrams(tokens, n)))]: NLTK's unpadded n-grams are the
    sliding windows of [build_ngrams]. *)
Definition freq (tokens : list token) (n : nat) : table :=
  Counter gram_eq_dec (build_ngrams tokens n).

(** [ngram_probs[1]]: [count / total_unigrams if total_unigrams > 0 else 0.0];
    the key [ngram_to_string((word,))] is rendered here as the 1-tuple. *)
Definition unigram_probs (tokens : list token) : list (gram * Q) :=
  let uni := unigrams tokens in
  let total_unigrams := sum_values uni in
  map (fun '(w, count) => ([w], div_or_zero count total_unigrams)) uni.

(** [bigram_probs]: [w1 = bigram[0]], [w1_count = unigrams.get(w1, 0)]. *)
Definition bigram_probs (tokens : list token) : list (gram * Q) :=
  let uni := unigrams tokens in
  map (fun '(bigram, count) =>
         let w1 := hd EmptyString bigram in
         let w1_count := get_default string_dec uni w1 in
         (bigram, div_or_zero count w1_count))
      (freq tokens 2).

(** [ngram_probs[n]] for [n] in [1..5] (before the keys are rendered
    with [ngram_to_string]). *)
Definition ngram_probs (tokens : list token) (n : nat) : list (gram * Q) :=
  match n with
  | 1 => unigram_probs tokens
  | 2 => bigram_probs tokens
  | _ => calculate_probabilities (freq tokens n) (freq tokens (n - 1))
  end.

End PolicyB.

(* ------------------------------------------------------------------ *)
(** ** [clean_text] of amazigh/pipeline.py, over Unicode code points *)

Module Normalize.

Open Scope N_scope.

Definition text := list N.

(** Python's [\s] for [str] patterns and [str.strip()]: the code points
    for which [str.isspace()] holds. *)
Definition is_space (c : N) : bool :=
  ((9 <=? c) && (c <=? 13)) || ((28 <=? c) && (c <=? 32)) ||
  (c =? 133) || (c =? 160) || (c =? 5760) ||
  ((8192 <=? c) && (c <=? 8202)) || (c =? 8232) || (c =? 8233) ||
  (c =? 8239) || (c =? 8287) || (c =? 12288).

(** The class [[0-9A-Za-z\u0600-\u06FF\u2D30-\u2D7F, U+2019, U+0027, U+02BF, _\-\s]]. *)
Definition allowed (c : N) : bool :=
  ((48 <=? c) && (c <=? 57)) || ((65 <=? c) && (c <=? 90)) ||
  ((97 <=? c) && (c <=? 122)) ||
  ((1536 <=? c) && (c <=? 1791)) || ((11568 <=? c) && (c <=? 11647)) ||
  (c =? 8217) || (c =? 39) || (c =? 703) || (c =? 95) || (c =? 45) ||
  is_space c.

(** Split at the first occurrence of [d]; the delimiter is dropped. *)
Fixpoint break_at (d : N) (l : text) : option (text * text) :=
  match l with
  | [] => None
  | c :: r =>
      if c =? d then Some ([], r)
      else match break_at d r with
           | Some (b, a) => Some (c :: b, a)
           | None => None
           end
  end.

(** Rest after the first occurrence of [d d] (lazy [.*?] with DOTALL). *)
Fixpoint after_pair (d : N) (l : text) : option text :=
  match l with
  | [] => None
  | c1 :: r =>
      match r with
      | [] => None
      | c2 :: r' => if (c1 =? d) && (c2 =? d) then Some r' else after_pair d r
      end
  end.

(** Same, for [.*?] without DOTALL: [.] does not cross a newline. *)
Fixpoint after_pair_line (d : N) (l : text) : option text :=
  match l with
  | [] => None
  | c1 :: r =>
      match r with
      | [] => None
      | c2 :: r' =>
          if (c1 =? d) && (c2 =? d) then Some r'
          else if c1 =? 10 then None else after_pair_line d r
      end
  end.

Fixpoint strip_prefix (p l : text) : option text :=
  match p, l with
  | [], _ => Some l
  | x :: p', y :: l' => if x =? y then strip_prefix p' l' else None
  | _ :: _, [] => None
  end.

(** [re.sub(r"<[^>]+>", " ", text)]: at a ['<'], the match runs to the
    first ['>'] and needs at least one character in between; [fuel] bounds
    the scan (one character at least is consumed per step). *)
Fixpoint sub_tags (fuel : nat) (l : text) : text :=
  match fuel with
  | O => l
  | S f =>
      match l with
      | [] => []
      | c :: r =>
          if c =? 60 then
            match break_at 62 r with
            | Some (_ :: _, a) => 32 :: sub_tags f a
            | _ => c :: sub_tags f r
            end
          else c :: sub_tags f r
      end
  end.

(** [re.sub(r"\{\{.*?\}\}", " ", text, flags=re.DOTALL)] *)
Fixpoint sub_templates (fuel : nat) (l : text) : text :=
  match fuel with
  | O => l
  | S f =>
      match l with
      | [] => []
      | c :: r =>
          match r with
          | c2 :: r' =>
              if (c =? 123) && (c2 =? 123) then
                match after_pair 125 r' with
                | Some a => 32 :: sub_templates f a
                | None => c :: sub_templates f r
                end
              else c :: sub_templates f r
          | [] => [c]
          end
      end
  end.

(** [re.sub(r"\[\[.*?\]\]", " ", text)] *)
Fixpoint sub_links (fuel : nat) (l : text) : text :=
  match fuel with
  | O => l
  | S f =>
      match l with
      | [] => []
      | c :: r =>
          match r with
          | c2 :: r' =>
              if (c =? 91) && (c2 =? 91) then
                match after_pair_line 93 r' with
                | Some a => 32 :: sub_links f a
                | None => c :: sub_links f r
                end
              else c :: sub_links f r
          | [] => [c]
          end
      end
  end.

(** ["http"], ["s://"], ["://"] *)
Definition http : text := [104; 116; 116; 112].
Definition s_colon_slashes : text := [115; 58; 47; 47].
Definition colon_slashes : text := [58; 47; 47].

(** [re.sub(r"\[https?:\/\/[^\]]*\]", " ", text)] *)
Fixpoint sub_external (fuel : nat) (l : text) : text :=
  match fuel with
  | O => l
  | S f =>
      match l with
      | [] => []
      | c :: r =>
          if c =? 91 then
            let after_scheme :=
              match strip_prefix http r with
              | Some r1 =>
                  match strip_prefix s_colon_slashes r1 with
                  | Some r2 => Some r2
                  | None => strip_prefix colon_slashes r1
                  end
              | None => None
              end in
            match after_scheme with
            | Some r2 =>
                match break_at 93 r2 with
                | Some (_, a) => 32 :: sub_external f a
                | None => c :: sub_external f r
                end
            | None => c :: sub_external f r
            end
          else c :: sub_external f r
      end
  end.

(** [re.sub(r"[^...]", " ", text)] *)
Definition sub_disallowed (l : text) : text :=
  map (fun c => if allowed c then c else 32) l.

(** [re.sub(r"\s+", " ", text)]: each maximal whitespace run becomes one
    space; [in_run] records that the previous character was whitespace. *)
Fixpoint collapse_aux (in_run : bool) (l : text) : text :=
  match l with
  | [] => []
  | c :: r =>
      if is_space c then
        if in_run then collapse_aux true r else 32 :: collapse_aux true r
      else c :: collapse_aux false r
  end.

Definition collapse (l : text) : text := collapse_aux false l.

Fixpoint lstrip (l : text) : text :=
  match l with
  | [] => []
  | c :: r => if is_space c then lstrip r else l
  end.

Definition rstrip (l : text) : text := rev (lstrip (rev l)).

(** [str.strip()] *)
Definition strip (l : text) : text := rstrip (lstrip l).

Definition run (step : nat -> text -> text) (l : text) : text :=
  step (S (length l)) l.

(** [clean_text(text)] *)
Definition clean_text (t : text) : text :=
  let t := run sub_tags t in
  let t := run sub_templates t in
  let t := run sub_links t in
  let t := run sub_external t in
  let t := sub_disallowed t in
  strip (collapse t).

(** No two adjacent whitespace characters. *)
Fixpoint no_double_space (l : text) : bool :=
  match l with
  | [] => true
  | a :: r =>
      match r with
      | [] => true
      | b :: _ => negb (is_space a && is_space b) && no_double_space r
      end
  end.

Definition starts_nonspace (l : text) : Prop :=
  match l with [] => True | c :: _ => is_space c = false end.

Definition ends_nonspace (l : text) : Prop :=
  forall l1 c, l = l1 ++ [c] -> is_space c = false.

End Normalize.

(* ------------------------------------------------------------------ *)
(** ** The driver of ngrams_tp.py over the configured files *)

Module Driver.

Definition path := string.
Definition lang := string.

(** Observable effects of a run: console warnings and messages, files
    written under [ngrams_tp/{lang}/], the final message. *)
Inductive event :=
| Warning_not_found (p : path)
| No_sentences (l : lang)
| Write (l : lang) (artifact : string)
| All_complete.

(** The file system: [None] for a missing file, otherwise its lines. *)
Definition fs := path -> option (list Normalize.text).

(** Loop body of [read_sentences_file]: [line.strip()], skip empty lines,
    keep [line.split('\t', 1)[1]] when there is a tab, else the line. *)
Definition read_line (line : Normalize.text) : list Normalize.text :=
  let l := Normalize.strip line in
  match l with
  | [] => []
  | _ => match Normalize.break_at 9 l with
         | Some (_, sentence) => [sentence]
         | None => [l]
         end
  end.

(** [read_sentences_file(file_path)], with its [FileNotFoundError]
    handler: a warning and no sentences. *)
Definition read_sentences_file (files : fs) (p : path)
  : list event * list Normalize.text :=
  match files p with
  | None => ([Warning_not_found p], [])
  | Some lines => ([], flat_map read_line lines)
  end.

(** The files [process_language] writes, in order. *)
Definition artifacts : list string :=
  ["1gram.json"; "2gram.json"; "3gram.json"; "4gram.json"; "5gram.json";
   "prob_2gram.json"; "prob_3gram.json"; "prob_4gram.json"; "prob_5gram.json";
   "vocab.json"; "vocab_rev.json"; "freq.json"]%string.

(** [process_language(lang, file_path)]: returns early when no sentence
    was read; otherwise every artifact is written. *)
Definition process_language (files : fs) (l : lang) (p : path) : list event :=
  let (ev, sentences) := read_sentences_file files p in
  ev ++ match sentences with
        | [] => [No_sentences l]
        | _ => map (Write l) artifacts
        end.

(** One iteration of the [__main__] loop: [os.path.exists(file_path)]. *)
Definition main_entry (files : fs) (entry : lang * path) : list event :=
  let (l, p) := entry in
  match files p with
  | Some _ => process_language files l p
  | None => [Warning_not_found p]
  end.

(** The [__main__] block over [FILE_PATHS.items()]. *)
Definition main (files : fs) (config : list (lang * path)) : list event :=
  flat_map (main_entry files) config ++ [All_complete].

End Driver.

(** A file system with one present file, ["eng.txt"], holding the line
    ["1\thi"]. *)
Definition sample_files : Driver.fs :=
  fun q => if string_dec q "eng.txt"%string then Some [[49; 9; 104; 105]%N] else None.

(** A line whose [line.strip()] is empty is skipped by [read_sentences_file]. *)
Definition blank_line (line : Normalize.text) : bool :=
  match Normalize.strip line with [] => true | _ => false end.

(* ------------------------------------------------------------------ *)
(** ** [tokenize] of amazigh/pipeline.py *)

Module Tokenize.
Import Normalize.
Open Scope N_scope.

(** [str.lower()] on the characters [clean_text] lets through: only [A-Z]
    change; digits, [a-z], the Arabic and Tifinagh blocks, U+2019, U+0027,
    U+02BF, [_], [-] and the space are caseless. *)
Definition lower (c : N) : N :=
  if (65 <=? c) && (c <=? 90) then c + 32 else c.

(** [str.split()]: the maximal runs of non-whitespace characters; [cur]
    holds the current word, reversed. *)
Fixpoint split_aux (cur : text) (l : text) : list text :=
  match l with
  | [] => match cur with [] => [] | _ => [rev cur] end
  | c :: r =>
      if is_space c then
        match cur with
        | [] => split_aux [] r
        | _ => rev cur :: split_aux [] r
        end
      else split_aux (c :: cur) r
  end.

Definition split (l : text) : list text := split_aux [] l.

(** [tokenize(text)] = [text.lower().split()], applied by [process_corpus]
    to the output of [clean_text]. *)
Definition tokenize (t : text) : list text := split (map lower t).

(** [" ".join(words)] *)
Fixpoint join (ws : list text) : text :=
  match ws with
  | [] => []
  | [w] => w
  | w :: r => w ++ 32 :: join r
  end.

End Tokenize.

(* ------------------------------------------------------------------ *)
(** ** Dict comprehensions and the JSON files *)

Section DictBuild.
Variable K : Type.
Variable K_eq_dec : forall x y : K, {x = y} + {x <> y}.

(** [d[k] = v]: an existing key keeps its place and takes the new value;
    a new key goes last. *)
Fixpoint dict_set {V : Type} (d : list (K * V)) (k : K) (v : V) : list (K * V) :=
  match d with
  | [] => [(k, v)]
  | (k', v') :: r => if K_eq_dec k' k then (k', v) :: r else (k', v') :: dict_set r k v
  end.

(** [{k: v for k, v in items}] *)
Definition dict_of_items {V : Type} (items : list (K * V)) : list (K * V) :=
  fold_left (fun acc kv => dict_set acc (fst kv) (snd kv)) items [].
End DictBuild.

Arguments dict_set {K} K_eq_dec {V} d k v.
Arguments dict_of_items {K} K_eq_dec {V} items.

(** [ngram_to_string(ngram)] of ngrams_tp.py, and [" ".join(k)] of
    pipeline.py *)
Definition ngram_to_string (g : gram) : string := String.concat " " g.

(** [{" ".join(k): v for k, v in d.items()}] *)
Definition render {V : Type} (d : list (gram * V)) : list (string * V) :=
  dict_of_items string_dec (map (fun kv => (ngram_to_string (fst kv), snd kv)) d).

(** [' '] *)
Definition space_char : Ascii.ascii := Ascii.ascii_of_nat 32.

(** The token has no [' '] in it. *)
Fixpoint no_space (s : string) : bool :=
  match s with
  | EmptyString => true
  | String a s' => negb (Ascii.eqb a space_char) && no_space s'
  end.

Module Output.

(** The object dumped to [{output_prefix}_{n}gram_counts.json] by
    [process_corpus]. *)
Definition counts_json (tokens : list token) (n : nat) : list (string * nat) :=
  render (PolicyA.counts tokens n).

(** The object dumped to [{output_prefix}_{n}gram_logproba.json]. *)
Definition logproba_json (tokens : list token) (n : nat) : option (list (string * R)) :=
  option_map render (PolicyA.probabilities tokens n).

(** [ngram_freqs[n]] of [process_language], dumped to [{n}gram.json]. *)
Definition ngram_freqs (tokens : list token) (n : nat) : list (string * nat) :=
  match n with
  | 1 => render (map (fun wc => ([fst wc], snd wc)) (PolicyB.unigrams tokens))
  | _ => render (PolicyB.freq tokens n)
  end.

(** [ngram_probs[n]] once its keys are rendered, dumped to
    [prob_{n}gram.json] for [n] in [2..5]. *)
Definition ngram_probs_json (tokens : list token) (n : nat) : list (string * Q) :=
  render (PolicyB.ngram_probs tokens n).

End Output.

(* ------------------------------------------------------------------ *)
(** ** Vocabulary and frequency summary of [process_language] *)

Module Vocab.

(** [sorted] on strings, by [<=] on code points: insertion sort. *)
Fixpoint insert (s : string) (l : list string) : list string :=
  match l with
  | [] => [s]
  | x :: r => if String.leb s x then s :: l else x :: insert s r
  end.

Definition sort (l : list string) : list string := fold_right insert [] l.

(** [vocab = sorted(set(tokens))]; the iteration order of the set does
    not matter once sorted. *)
Definition vocab (tokens : list token) : list string :=
  sort (nodup string_dec tokens).

(** [enumerate(l)] *)
Definition enumerate {A : Type} (l : list A) : list (nat * A) :=
  combine (seq 0 (length l)) l.

(** [vocab_dict = {word: idx for idx, word in enumerate(vocab)}] *)
Definition vocab_dict (tokens : list token) : list (string * nat) :=
  dict_of_items string_dec (map (fun iw => (snd iw, fst iw)) (enumerate (vocab tokens))).

(** [vocab_rev = {idx: word for idx, word in enumerate(vocab)}] *)
Definition vocab_rev (tokens : list token) : list (nat * string) :=
  dict_of_items Nat.eq_dec (enumerate (vocab tokens)).

(** [freq_summary], dumped to [freq.json]. *)
Record freq_summary := {
  unigrams : nat;
  bigrams : nat;
  trigrams : nat;
  quadrigrams : nat;
  pentagrams : nat;
  total_tokens : nat;
  vocabulary_size : nat
}.

Definition summary (tokens : list token) : freq_summary := {|
  unigrams := length (PolicyB.unigrams tokens);
  bigrams := length (PolicyB.freq tokens 2);
  trigrams := length (PolicyB.freq tokens 3);
  quadrigrams := length (PolicyB.freq tokens 4);
  pentagrams := length (PolicyB.freq tokens 5);
  total_tokens := length tokens;
  vocabulary_size := length (vocab tokens)
|}.

End Vocab.

(** [sum(values)] over rationals *)
Definition Qsum (l : list Q) : Q := fold_right Qplus 0%Q l.


(* ================================================================== *)
(** * Lemmas *)

Section CounterFacts.
Variable K : Type.
Variable eq_dec : forall x y : K, {x = y} + {x <> y}.

Lemma get_counter_add c x k :
  get eq_dec (counter_add eq_dec c x) k =
  if eq_dec x k then Some (S (get_default eq_dec c k)) else get eq_dec c k.
Proof.
  unfold get_default.
  induction c as [|[k' v] r IH]; simpl.
  - destruct (eq_dec x k); reflexivity.
  - destruct (eq_dec k' x) as [->|Hne]; simpl.
    + destruct (eq_dec x k); reflexivity.
    + destruct (eq_dec k' k) as [->|Hne']; rewrite ?IH.
      * destruct (eq_dec x k); [congruence | reflexivity].
      * reflexivity.
Qed.

Lemma get_counter_update xs c k :
  get eq_dec (counter_update eq_dec c xs) k =
  match get eq_dec c k with
  | Some v => Some (v + count_occ eq_dec xs k)
  | None => if Nat.eqb (count_occ eq_dec xs k) 0 then None
            else Some (count_occ eq_dec xs k)
  end.
Proof.
  unfold counter_update.
  revert c; induction xs as [|x xs IH]; intro c; simpl.
  - destruct (get eq_dec c k); [rewrite Nat.add_0_r|]; reflexivity.
  - rewrite IH, get_counter_add. unfold get_default.
    destruct (eq_dec x k) as [->|Hne]; destruct (get eq_dec c k);
      simpl; f_equal; try lia.
    destruct (count_occ eq_dec xs k); reflexivity.
Qed.

Lemma get_Counter xs k :
  get eq_dec (Counter eq_dec xs) k =
  if Nat.eqb (count_occ eq_dec xs k) 0 then None else Some (count_occ eq_dec xs k).
Proof. unfold Counter; rewrite get_counter_update; reflexivity. Qed.

Lemma get_default_Counter xs k :
  get_default eq_dec (Counter eq_dec xs) k = count_occ eq_dec xs k.
Proof.
  unfold get_default; rewrite get_Counter.
  destruct (Nat.eqb_spec (count_occ eq_dec xs k) 0); auto.
Qed.

Lemma sum_values_counter_add c x :
  sum_values (counter_add eq_dec c x) = S (sum_values c).
Proof.
  induction c as [|[k v] r IH]; simpl; [reflexivity|].
  destruct (eq_dec k x); simpl; [reflexivity | rewrite IH; lia].
Qed.

Lemma sum_values_Counter xs : sum_values (Counter eq_dec xs) = length xs.
Proof.
  unfold Counter, counter_update.
  assert (H : forall c, sum_values (fold_left (counter_add eq_dec) xs c)
                        = sum_values c + length xs).
  { induction xs as [|x xs IH]; intro c; simpl; [lia|].
    rewrite IH, sum_values_counter_add; lia. }
  rewrite H; reflexivity.
Qed.

Lemma get_le_sum_values {d : list (K * nat)} {k v} :
  get eq_dec d k = Some v -> v <= sum_values d.
Proof.
  induction d as [|[k' v'] r IH]; simpl; [discriminate|].
  destruct (eq_dec k' k); [intros [= ->]; lia | intro H; specialize (IH H); lia].
Qed.

Lemma Counter_nil_iff xs : Counter eq_dec xs = [] <-> xs = [].
Proof.
  split; [|intros ->; reflexivity].
  destruct xs as [|x xs]; [auto|].
  intro H. assert (Hs := sum_values_Counter (x :: xs)).
  rewrite H in Hs. discriminate.
Qed.

Lemma count_occ_map_le {A : Type} (eqA : forall x y : A, {x = y} + {x <> y})
      (f : A -> K) (l : list A) (a : A) :
  count_occ eqA l a <= count_occ eq_dec (map f l) (f a).
Proof.
  induction l as [|y l IH]; simpl; [lia|].
  destruct (eqA y a); destruct (eq_dec (f y) (f a)); subst; try congruence; lia.
Qed.

End CounterFacts.

(** ** Sliding windows *)

Lemma range_bound (L n : nat) :
  Z.to_nat (Z.of_nat L - Z.of_nat n + 1) = L + 1 - n.
Proof. lia. Qed.

Lemma build_ngrams_length (tokens : list token) (n : nat) :
  length (build_ngrams tokens n) = length tokens + 1 - n.
Proof. unfold build_ngrams. rewrite length_map, length_seq. apply range_bound. Qed.

Lemma build_ngrams_nth (tokens : list token) (n i : nat) :
  i < length tokens + 1 - n ->
  nth_error (build_ngrams tokens n) i = Some (slice tokens i (i + n)).
Proof.
  intro Hi. unfold build_ngrams. rewrite nth_error_map, nth_error_seq, range_bound.
  destruct (Nat.ltb_spec i (length tokens + 1 - n)); [reflexivity | lia].
Qed.

Lemma slice_nth {A : Type} (xs : list A) (i n j : nat) :
  nth_error (slice xs i (i + n)) j = if Nat.ltb j n then nth_error xs (i + j) else None.
Proof.
  unfold slice. replace (i + n - i) with n by lia.
  rewrite nth_error_firstn, nth_error_skipn. reflexivity.
Qed.

Lemma slice_length {A : Type} (xs : list A) (i n : nat) :
  i + n <= length xs -> length (slice xs i (i + n)) = n.
Proof.
  intro H. unfold slice. rewrite length_firstn, length_skipn. lia.
Qed.

Lemma prefix_slice (tokens : list token) (i n : nat) :
  1 <= n -> i + n <= length tokens ->
  prefix (slice tokens i (i + n)) = slice tokens i (i + (n - 1)).
Proof.
  intros H1 H2. unfold prefix, slice.
  replace (i + n - i) with (S (n - 1)) by lia.
  replace (i + (n - 1) - i) with (n - 1) by lia.
  apply removelast_firstn. rewrite length_skipn. lia.
Qed.

Lemma build_ngrams_prefix_app (tokens : list token) (n : nat) :
  1 <= n ->
  exists rest, build_ngrams tokens (n - 1) = map prefix (build_ngrams tokens n) ++ rest.
Proof.
  intro Hn. unfold build_ngrams. rewrite !range_bound.
  set (k := length tokens + 1 - n).
  replace (length tokens + 1 - (n - 1)) with (k + (length tokens + 1 - (n - 1) - k))
    by (subst k; lia).
  rewrite seq_app, map_app, map_map.
  eexists. f_equal.
  apply map_ext_in. intros i Hi. apply in_seq in Hi.
  symmetry. apply prefix_slice; subst k; lia.
Qed.

Lemma count_build_ngrams_prefix (tokens : list token) (n : nat) (g : gram) :
  1 <= n ->
  count_occ gram_eq_dec (build_ngrams tokens n) g <=
  count_occ gram_eq_dec (build_ngrams tokens (n - 1)) (prefix g).
Proof.
  intro Hn. destruct (build_ngrams_prefix_app tokens n Hn) as [rest ->].
  rewrite count_occ_app.
  pose proof (count_occ_map_le _ gram_eq_dec gram_eq_dec prefix (build_ngrams tokens n) g).
  lia.
Qed.

Lemma build_ngrams_cons (x : token) (tokens : list token) (n : nat) :
  n <= S (length tokens) ->
  build_ngrams (x :: tokens) n = firstn n (x :: tokens) :: build_ngrams tokens n.
Proof.
  intro Hn. unfold build_ngrams. rewrite !range_bound. simpl length.
  replace (S (length tokens) + 1 - n) with (S (length tokens + 1 - n)) by lia.
  cbn [seq map]. rewrite <- seq_shift, map_map. f_equal.
  unfold slice. simpl. rewrite Nat.sub_0_r. reflexivity.
Qed.

Lemma build_ngrams_1 (tokens : list token) :
  build_ngrams tokens 1 = map (fun w => [w]) tokens.
Proof.
  induction tokens as [|x tokens IH]; [reflexivity|].
  rewrite build_ngrams_cons by lia. simpl. rewrite IH. reflexivity.
Qed.

Lemma count_occ_singletons (tokens : list token) (w : token) :
  count_occ gram_eq_dec (map (fun w => [w]) tokens) [w] = count_occ string_dec tokens w.
Proof.
  induction tokens as [|x tokens IH]; simpl; [reflexivity|].
  destruct (gram_eq_dec [x] [w]) as [E|E]; destruct (string_dec x w); subst;
    try congruence; rewrite IH; reflexivity.
Qed.

Lemma In_build_ngrams_length (tokens : list token) (n : nat) (g : gram) :
  In g (build_ngrams tokens n) -> length g = n.
Proof.
  unfold build_ngrams. intro H. apply in_map_iff in H as [i [<- Hi]].
  apply in_seq in Hi. rewrite range_bound in Hi. apply slice_length. lia.
Qed.

(** ** Counter keys are unique *)

Section CounterKeys.
Variable K : Type.
Variable eq_dec : forall x y : K, {x = y} + {x <> y}.

Lemma In_keys_counter_add c x k :
  In k (map fst (counter_add eq_dec c x)) -> In k (map fst c) \/ k = x.
Proof.
  induction c as [|[k' v] r IH]; simpl.
  - intros [<-|[]]. right; reflexivity.
  - destruct (eq_dec k' x) as [->|]; simpl.
    + intros [<-|H]; [left; left; reflexivity | left; right; exact H].
    + intros [<-|H]; [left; left; reflexivity|].
      destruct (IH H); [left; right; assumption | right; assumption].
Qed.

Lemma NoDup_keys_counter_add c x :
  NoDup (map fst c) -> NoDup (map fst (counter_add eq_dec c x)).
Proof.
  induction c as [|[k v] r IH]; simpl; intro Hnd.
  - constructor; [intros [] | constructor].
  - inversion Hnd as [|? ? Hk Hr]; subst.
    destruct (eq_dec k x) as [->|Hne]; simpl; [exact Hnd|].
    constructor; [|exact (IH Hr)].
    intro Hin. destruct (In_keys_counter_add r x k Hin); [contradiction | congruence].
Qed.

Lemma NoDup_keys_Counter xs : NoDup (map fst (Counter eq_dec xs)).
Proof.
  unfold Counter, counter_update.
  assert (H : forall c, NoDup (map fst c) ->
                        NoDup (map fst (fold_left (counter_add eq_dec) xs c))).
  { induction xs as [|x xs IH]; intros c Hc; simpl; [exact Hc|].
    apply IH, NoDup_keys_counter_add, Hc. }
  apply H. constructor.
Qed.

Lemma In_get_NoDup {V : Type} (d : list (K * V)) k v :
  NoDup (map fst d) -> In (k, v) d -> get eq_dec d k = Some v.
Proof.
  induction d as [|[k' v'] r IH]; simpl; [intros _ []|].
  intros Hnd [[= -> ->]|Hin].
  - destruct (eq_dec k k); [reflexivity | congruence].
  - inversion Hnd as [|? ? Hk Hr]; subst.
    destruct (eq_dec k' k) as [->|]; [|exact (IH Hr Hin)].
    exfalso. apply Hk. apply in_map_iff. exists (k, v). auto.
Qed.

Lemma In_Counter xs k v :
  In (k, v) (Counter eq_dec xs) -> get eq_dec (Counter eq_dec xs) k = Some v.
Proof. apply In_get_NoDup, NoDup_keys_Counter. Qed.

End CounterKeys.

Lemma get_counts (tokens : list token) (n : nat) (g : gram) :
  get gram_eq_dec (PolicyA.counts tokens n) g =
  let k := count_occ gram_eq_dec (build_ngrams tokens n) g in
  if Nat.eqb k 0 then None else Some k.
Proof. unfold PolicyA.counts. rewrite get_counter_update. reflexivity. Qed.

Lemma counts_nil_iff (tokens : list token) (n : nat) :
  PolicyA.counts tokens n = [] <-> build_ngrams tokens n = [].
Proof. apply Counter_nil_iff. Qed.

(** Both pipelines count the same way. *)
Lemma freq_counts (tokens : list token) (n : nat) :
  PolicyB.freq tokens n = PolicyA.counts tokens n.
Proof. reflexivity. Qed.

(** Every key of a count table of order [n >= 1] has its prefix counted at
    least as often one order below. *)
Lemma counts_prefix_dominance (tokens : list token) (n : nat) (g : gram) (c : nat) :
  1 <= n ->
  get gram_eq_dec (PolicyA.counts tokens n) g = Some c ->
  exists c', get gram_eq_dec (PolicyA.counts tokens (n - 1)) (prefix g) = Some c' /\ c <= c'.
Proof.
  intros Hn. rewrite !get_counts. cbv zeta.
  pose proof (count_build_ngrams_prefix tokens n g Hn) as Hle.
  destruct (Nat.eqb_spec (count_occ gram_eq_dec (build_ngrams tokens n) g) 0);
    [discriminate|].
  intros [= <-].
  destruct (Nat.eqb_spec (count_occ gram_eq_dec (build_ngrams tokens (n - 1)) (prefix g)) 0);
    [lia|].
  eexists; split; [reflexivity | exact Hle].
Qed.

Lemma build_ngrams_nonempty_pred (tokens : list token) (n : nat) :
  1 <= n -> build_ngrams tokens n <> [] -> build_ngrams tokens (n - 1) <> [].
Proof.
  intros Hn H E.
  apply H, length_zero_iff_nil. apply (f_equal (@length gram)) in E.
  rewrite build_ngrams_length in *. simpl in E. lia.
Qed.

(** ** Policy A lemmas *)

Module PolicyAFacts.
Import PolicyA.

Lemma calc_items_some items lower V :
  0 < V -> exists out, calc_items items lower V = Some out.
Proof.
  intro HV. induction items as [|[g c] r [out IH]]; simpl; [eexists; reflexivity|].
  destruct (Nat.eqb_spec (get_default gram_eq_dec lower (prefix g) + V) 0); [lia|].
  rewrite IH. eexists; reflexivity.
Qed.

Lemma calc_items_get items lower V out g :
  calc_items items lower V = Some out ->
  get gram_eq_dec out g =
  option_map (fun c => score (prob c (get_default gram_eq_dec lower (prefix g)) V))
             (get gram_eq_dec items g).
Proof.
  revert out. induction items as [|[g' c] r IH]; simpl; intros out H.
  - injection H as <-. reflexivity.
  - destruct (Nat.eqb (get_default gram_eq_dec lower (prefix g') + V) 0); [discriminate|].
    destruct (calc_items r lower V) as [ps|] eqn:E; [|discriminate].
    injection H as <-. simpl.
    destruct (gram_eq_dec g' g) as [->|]; [reflexivity | exact (IH ps eq_refl)].
Qed.

Lemma calc_items_In items lower V out g s :
  calc_items items lower V = Some out -> In (g, s) out ->
  exists c, In (g, c) items /\ s = score (prob c (get_default gram_eq_dec lower (prefix g)) V).
Proof.
  revert out. induction items as [|[g' c] r IH]; simpl; intros out H Hin.
  - injection H as <-. destruct Hin.
  - destruct (Nat.eqb (get_default gram_eq_dec lower (prefix g') + V) 0); [discriminate|].
    destruct (calc_items r lower V) as [ps|] eqn:E; [|discriminate].
    injection H as <-. destruct Hin as [[= -> <-]|Hin].
    + exists c. split; [left; reflexivity | reflexivity].
    + destruct (IH ps eq_refl Hin) as [c' [H1 H2]]. exists c'. auto.
Qed.

Lemma prob_pos c pc V : 0 < pc + V -> (0 < prob c pc V)%Q.
Proof.
  intro H. unfold prob. apply Qlt_shift_div_l.
  - unfold Qlt; simpl; lia.
  - rewrite Qmult_0_l. unfold Qlt; simpl; lia.
Qed.

Lemma prob_le_1 c pc V : c + 1 <= pc + V -> (prob c pc V <= 1)%Q.
Proof.
  intro H. unfold prob. apply Qle_shift_div_r.
  - unfold Qlt; simpl; lia.
  - rewrite Qmult_1_l. unfold Qle; simpl; lia.
Qed.

Lemma score_nonneg p : (0 < p)%Q -> (p <= 1)%Q -> (0 <= score p)%R.
Proof.
  intros H0 H1. unfold score.
  apply Qlt_Rlt in H0. apply Qle_Rle in H1.
  replace (Q2R 0) with 0%R in H0 by (unfold Q2R; simpl; field).
  replace (Q2R 1) with 1%R in H1 by (unfold Q2R; simpl; field).
  destruct (Rle_lt_or_eq_dec _ _ H1) as [Hlt | ->].
  - pose proof (ln_increasing _ _ H0 Hlt). rewrite ln_1 in H. lra.
  - rewrite ln_1. lra.
Qed.

Lemma prob_gt_1 c pc V : 0 < pc + V -> pc + V <= c -> (1 < prob c pc V)%Q.
Proof.
  intros H0 H. unfold prob. apply Qlt_shift_div_l.
  - unfold Qlt; simpl; lia.
  - rewrite Qmult_1_l. unfold Qlt; simpl; lia.
Qed.

Lemma score_neg p : (1 < p)%Q -> (score p < 0)%R.
Proof.
  intro H1. unfold score.
  apply Qlt_Rlt in H1.
  replace (Q2R 1) with 1%R in H1 by (unfold Q2R; simpl; field).
  pose proof (ln_increasing 1 _ ltac:(lra) H1). rewrite ln_1 in H. lra.
Qed.

Lemma calc_items_empty_lower items : items <> [] -> calc_items items [] 0 = None.
Proof. destruct items as [|[g c] r]; [congruence | reflexivity]. Qed.

End PolicyAFacts.

Lemma counts_probabilities_some (tokens : list token) (n : nat) :
  1 <= n -> exists out, PolicyA.probabilities tokens n = Some out.
Proof.
  intro Hn. unfold PolicyA.probabilities, PolicyA.calculate_probabilities.
  destruct (PolicyA.counts tokens n) as [|x xs] eqn:E; [eexists; reflexivity|].
  apply PolicyAFacts.calc_items_some.
  destruct (PolicyA.counts tokens (n - 1)) eqn:E'; simpl; [|lia].
  exfalso. apply counts_nil_iff in E'.
  apply (build_ngrams_nonempty_pred tokens n Hn); [|exact E'].
  intro Hb. apply counts_nil_iff in Hb. congruence.
Qed.

Lemma in_counts_pos (tokens : list token) (n : nat) (g : gram) (c : nat) :
  get gram_eq_dec (PolicyA.counts tokens n) g = Some c ->
  c = count_occ gram_eq_dec (build_ngrams tokens n) g /\ 0 < c.
Proof.
  rewrite get_counts. cbv zeta.
  destruct (Nat.eqb_spec (count_occ gram_eq_dec (build_ngrams tokens n) g) 0);
    [discriminate | intros [= <-]; lia].
Qed.

Lemma get_some_length {K V : Type} eq_dec (d : list (K * V)) k v :
  get eq_dec d k = Some v -> 0 < length d.
Proof. destruct d; simpl; [discriminate | lia]. Qed.

Lemma freq_prefix_dominance (tokens : list token) (n : nat) (g : gram) (c : nat) :
  2 <= n ->
  get gram_eq_dec (PolicyB.freq tokens n) g = Some c ->
  exists c', get gram_eq_dec (PolicyB.freq tokens (n - 1)) (prefix g) = Some c' /\ c <= c'.
Proof. intro Hn. rewrite !freq_counts. apply counts_prefix_dominance; lia. Qed.

Lemma bigram_unigram_dominance (tokens : list token) (g : gram) (c : nat) :
  get gram_eq_dec (PolicyB.freq tokens 2) g = Some c ->
  exists c', get string_dec (PolicyB.unigrams tokens) (hd EmptyString g) = Some c' /\ c <= c'.
Proof.
  intro Hg. rewrite freq_counts in Hg.
  destruct (counts_prefix_dominance tokens 2 g c ltac:(lia) Hg) as [c' [Hp Hle]].
  destruct (in_counts_pos _ _ _ _ Hg) as [Hc Hpos].
  assert (Hin : In g (build_ngrams tokens 2)).
  { apply (count_occ_In gram_eq_dec). lia. }
  apply In_build_ngrams_length in Hin.
  destruct g as [|a [|b [|]]]; simpl in Hin; try discriminate.
  simpl in Hp |- *. unfold PolicyB.unigrams. rewrite get_Counter.
  destruct (in_counts_pos _ _ _ _ Hp) as [Hc' Hpos'].
  simpl in Hc'. rewrite build_ngrams_1, count_occ_singletons in Hc'.
  rewrite <- Hc'. destruct (Nat.eqb_spec c' 0); [lia|].
  eexists; split; [reflexivity | exact Hle].
Qed.

(* ================================================================== *)
(** * Claims *)

(** C1. Policy A estimation: for every gram [g] of order [n] in [2..5]
    counted by [process_corpus], the emitted score is
    [-ln((count_n(g) + 1) / (count_{n-1}(prefix g) + V))], the prefix
    count defaulting to 0 and [V] the number of keys of the order-[n-1]
    table; with count 2, prefix count 2 and [V = 3], [prob = 3/5 = 0.6]. *)
Theorem policyA_score_formula :
  (forall (tokens : list token) (n : nat) (g : gram) (c : nat),
    2 <= n <= 5 ->
    get gram_eq_dec (PolicyA.counts tokens n) g = Some c ->
    exists out, PolicyA.probabilities tokens n = Some out /\
      get gram_eq_dec out g =
      Some (PolicyA.score (PolicyA.prob c
              (get_default gram_eq_dec (PolicyA.counts tokens (n - 1)) (prefix g))
              (length (PolicyA.counts tokens (n - 1)))))) /\
  PolicyA.prob 2 2 3 = (3 # 5)%Q /\
  PolicyA.score (PolicyA.prob 2 2 3) = (- ln (3 / 5))%R.
Proof.
  split; [|split; [reflexivity|]].
  - intros tokens n g c Hn Hg.
    destruct (counts_probabilities_some tokens n ltac:(lia)) as [out Hout].
    exists out. split; [exact Hout|].
    unfold PolicyA.probabilities, PolicyA.calculate_probabilities in Hout.
    rewrite (PolicyAFacts.calc_items_get _ _ _ _ g Hout), Hg. reflexivity.
  - unfold PolicyA.score.
    replace (Q2R (PolicyA.prob 2 2 3)) with (3 / 5)%R by (unfold Q2R; simpl; field).
    reflexivity.
Qed.

Lemma policyA_score_formula_witness :
  exists out,
    PolicyA.probabilities ["a"; "b"; "a"; "b"; "c"]%string 2 = Some out /\
    get gram_eq_dec out ["a"; "b"]%string = Some (PolicyA.score (3 # 5)).
Proof.
  destruct (proj1 policyA_score_formula ["a"; "b"; "a"; "b"; "c"]%string 2
              ["a"; "b"]%string 2 ltac:(lia) ltac:(vm_compute; reflexivity))
    as [out [H1 H2]].
  exists out. split; [exact H1|]. rewrite H2. do 2 f_equal.
Defined.

(** C10. Prefix dominance: when the tables of orders [n] and [n-1]
    ([n >= 2]) come from the same token sequence, the prefix of every key
    of the order-[n] table is a key one order below with at least the same
    count; this holds for pipeline.py's Counters, for ngrams_tp.py's
    FreqDists, and for its bigram/unigram pair keyed by [bigram[0]]. *)
Theorem prefix_dominance (tokens : list token) (n : nat) (g : gram) (c : nat) :
  2 <= n ->
  (get gram_eq_dec (PolicyA.counts tokens n) g = Some c ->
   exists c', get gram_eq_dec (PolicyA.counts tokens (n - 1)) (prefix g) = Some c' /\ c <= c') /\
  (get gram_eq_dec (PolicyB.freq tokens n) g = Some c ->
   exists c', get gram_eq_dec (PolicyB.freq tokens (n - 1)) (prefix g) = Some c' /\ c <= c') /\
  (n = 2 -> get gram_eq_dec (PolicyB.freq tokens 2) g = Some c ->
   exists c', get string_dec (PolicyB.unigrams tokens) (hd EmptyString g) = Some c' /\ c <= c').
Proof.
  intro Hn. split; [|split].
  - apply counts_prefix_dominance; lia.
  - rewrite !freq_counts. apply counts_prefix_dominance; lia.
  - intros -> Hg. rewrite freq_counts in Hg.
    destruct (counts_prefix_dominance tokens 2 g c ltac:(lia) Hg) as [c' [Hp Hle]].
    destruct (in_counts_pos _ _ _ _ Hg) as [Hc Hpos].
    assert (Hin : In g (build_ngrams tokens 2)).
    { apply (count_occ_In gram_eq_dec). lia. }
    apply In_build_ngrams_length in Hin.
    destruct g as [|a [|b [|]]]; simpl in Hin; try discriminate.
    simpl in Hp |- *. unfold PolicyB.unigrams. rewrite get_Counter.
    destruct (in_counts_pos _ _ _ _ Hp) as [Hc' Hpos'].
    simpl in Hc'. rewrite build_ngrams_1, count_occ_singletons in Hc'.
    rewrite <- Hc'. destruct (Nat.eqb_spec c' 0); [lia|].
    eexists; split; [reflexivity | exact Hle].
Qed.

Lemma prefix_dominance_witness :
  exists c', get gram_eq_dec (PolicyA.counts ["a"; "b"; "a"; "b"; "c"]%string 1) ["a"]%string
             = Some c' /\ 2 <= c'.
Proof.
  exact (proj1 (prefix_dominance ["a"; "b"; "a"; "b"; "c"]%string 2 ["a"; "b"]%string 2
                  ltac:(lia)) ltac:(vm_compute; reflexivity)).
Defined.

(** C3 (counterexample). Policy A on arbitrary tables: an order-[n] count
    above its prefix count plus [V - 1] gives a probability above 1 and a
    negative score, and an empty lower-order table makes the division raise
    [ZeroDivisionError]. *)
Lemma policyA_positivity_counterexample :
  PolicyA.calculate_probabilities [(["a"; "b"]%string, 5)] [(["c"]%string, 1)]
    = Some [(["a"; "b"]%string, PolicyA.score (6 # 1))] /\
  (PolicyA.score (6 # 1) < 0)%R /\
  PolicyA.calculate_probabilities [(["a"; "b"]%string, 1)] [] = None.
Proof.
  split; [reflexivity | split; [|reflexivity]].
  unfold PolicyA.score.
  replace (Q2R (6 # 1)) with 6%R by (unfold Q2R; simpl; field).
  pose proof (ln_increasing 1 6 ltac:(lra) ltac:(lra)) as H.
  rewrite ln_1 in H. lra.
Qed.

(** C3 (amended). For any order-[n] table and any non-empty lower-order
    table, every Policy A probability is strictly positive; with an empty
    lower-order table and a non-empty order-[n] table the division raises
    [ZeroDivisionError]; on arbitrary tables, with a non-empty lower-order
    table, a count [c >= prefix_count + V] (that is, larger than
    [prefix_count + V - 1]) gives a probability above 1 and a negative
    emitted score; when both tables come from the same token sequence, as in
    [process_corpus] for [n] in [2..5], the computation never fails,
    [0 < prob <= 1] for every counted gram and every emitted score is
    [>= 0]. *)
Theorem policyA_positivity :
  (forall (ngram_counts lower_counts : table),
     lower_counts <> [] ->
     exists out, PolicyA.calculate_probabilities ngram_counts lower_counts = Some out /\
     forall g c, get gram_eq_dec ngram_counts g = Some c ->
       (0 < PolicyA.prob c (get_default gram_eq_dec lower_counts (prefix g))
                           (length lower_counts))%Q) /\
  (forall (ngram_counts : table),
     ngram_counts <> [] ->
     PolicyA.calculate_probabilities ngram_counts [] = None) /\
  (forall (ngram_counts lower_counts : table) (g : gram) (c : nat),
     lower_counts <> [] ->
     get gram_eq_dec ngram_counts g = Some c ->
     get_default gram_eq_dec lower_counts (prefix g) + length lower_counts <= c ->
     let p := PolicyA.prob c (get_default gram_eq_dec lower_counts (prefix g))
                             (length lower_counts) in
     exists out, PolicyA.calculate_probabilities ngram_counts lower_counts = Some out /\
     get gram_eq_dec out g = Some (PolicyA.score p) /\
     (1 < p)%Q /\ (PolicyA.score p < 0)%R) /\
  (forall (tokens : list token) (n : nat),
     2 <= n <= 5 ->
     exists out, PolicyA.probabilities tokens n = Some out /\
     (forall g c, get gram_eq_dec (PolicyA.counts tokens n) g = Some c ->
        let p := PolicyA.prob c
                   (get_default gram_eq_dec (PolicyA.counts tokens (n - 1)) (prefix g))
                   (length (PolicyA.counts tokens (n - 1))) in
        (0 < p)%Q /\ (p <= 1)%Q) /\
     (forall g s, In (g, s) out -> (0 <= s)%R)).
Proof.
  split; [|split; [|split]].
  - intros items lower Hl.
    assert (HV : 0 < length lower) by (destruct lower; [congruence | simpl; lia]).
    destruct (PolicyAFacts.calc_items_some items lower (length lower) HV) as [out Hout].
    exists out. split; [exact Hout|].
    intros g c _. apply PolicyAFacts.prob_pos. lia.
  - intros items Hi. apply PolicyAFacts.calc_items_empty_lower, Hi.
  - intros items lower g c Hl Hg Hc. cbv zeta.
    assert (HV : 0 < length lower) by (destruct lower; [congruence | simpl; lia]).
    destruct (PolicyAFacts.calc_items_some items lower (length lower) HV) as [out Hout].
    assert (Hp : (1 < PolicyA.prob c (get_default gram_eq_dec lower (prefix g))
                                   (length lower))%Q)
      by (apply PolicyAFacts.prob_gt_1; lia).
    exists out. split; [exact Hout | split; [| split; [exact Hp |]]].
    + rewrite (PolicyAFacts.calc_items_get _ _ _ _ g Hout), Hg. reflexivity.
    + apply PolicyAFacts.score_neg, Hp.
  - intros tokens n Hn.
    destruct (counts_probabilities_some tokens n ltac:(lia)) as [out Hout].
    assert (Hbound : forall g c, get gram_eq_dec (PolicyA.counts tokens n) g = Some c ->
              let p := PolicyA.prob c
                   (get_default gram_eq_dec (PolicyA.counts tokens (n - 1)) (prefix g))
                   (length (PolicyA.counts tokens (n - 1))) in
              (0 < p)%Q /\ (p <= 1)%Q).
    { intros g c Hg. cbv zeta.
      destruct (counts_prefix_dominance tokens n g c ltac:(lia) Hg) as [c' [Hp Hle]].
      pose proof (get_some_length _ _ _ _ Hp) as HV.
      unfold get_default. rewrite Hp.
      split; [apply PolicyAFacts.prob_pos | apply PolicyAFacts.prob_le_1]; lia. }
    exists out. split; [exact Hout | split; [exact Hbound|]].
    intros g s Hin.
    unfold PolicyA.probabilities, PolicyA.calculate_probabilities in Hout.
    destruct (PolicyAFacts.calc_items_In _ _ _ _ _ _ Hout Hin) as [c [Hc ->]].
    apply In_Counter in Hc.
    destruct (Hbound g c Hc) as [H0 H1].
    apply PolicyAFacts.score_nonneg; assumption.
Qed.

Lemma policyA_positivity_witness :
  (exists out, PolicyA.calculate_probabilities [(["a"; "b"]%string, 1)] [(["a"]%string, 1)]
                 = Some out) /\
  PolicyA.calculate_probabilities [(["a"; "b"]%string, 1)] [] = None /\
  (exists out, PolicyA.calculate_probabilities [(["a"; "b"]%string, 5)] [(["c"]%string, 1)]
                 = Some out /\ get gram_eq_dec out ["a"; "b"]%string
                 = Some (PolicyA.score (PolicyA.prob 5 0 1))) /\
  (exists out, PolicyA.probabilities ["a"; "b"; "a"; "b"; "c"]%string 3 = Some out /\
              forall g s, In (g, s) out -> (0 <= s)%R).
Proof.
  destruct policyA_positivity as [HA [HB [HC HD]]].
  split; [|split; [|split]].
  - destruct (HA [(["a"; "b"]%string, 1)] [(["a"]%string, 1)] ltac:(discriminate))
      as [out [H _]].
    exists out. exact H.
  - exact (HB [(["a"; "b"]%string, 1)] ltac:(discriminate)).
  - destruct (HC [(["a"; "b"]%string, 5)] [(["c"]%string, 1)] ["a"; "b"]%string 5
                ltac:(discriminate) ltac:(vm_compute; reflexivity) ltac:(vm_compute; lia))
      as [out [H1 [H2 _]]].
    exists out. split; [exact H1 | exact H2].
  - destruct (HD ["a"; "b"; "a"; "b"; "c"]%string 3 ltac:(lia)) as [out [H1 [_ H3]]].
    exists out. split; assumption.
Defined.

(** C8. Empty input: every count table of orders [1..5] of both pipelines
    is empty, both estimators return empty tables, and the Policy A
    computation of [process_corpus] never raises for any token sequence,
    while Policy B's guarded division returns [0] on a zero denominator. *)
Theorem empty_input_division_safety :
  (forall n, 1 <= n <= 5 ->
     PolicyA.counts [] n = [] /\ PolicyB.freq [] n = [] /\
     PolicyB.ngram_probs [] n = []) /\
  PolicyB.unigrams [] = [] /\
  (forall n, 2 <= n <= 5 -> PolicyA.probabilities [] n = Some []) /\
  (forall (tokens : list token) n, 2 <= n <= 5 -> PolicyA.probabilities tokens n <> None) /\
  (forall c, PolicyB.div_or_zero c 0 = 0%Q).
Proof.
  split; [|split; [reflexivity|split; [|split]]].
  - intros n Hn.
    assert (Hb : forall m, 1 <= m -> build_ngrams [] m = []).
    { intros m Hm. apply length_zero_iff_nil. rewrite build_ngrams_length. simpl length. lia. }
    assert (Hc : forall m, 1 <= m -> PolicyA.counts [] m = []).
    { intros m Hm. apply counts_nil_iff, Hb, Hm. }
    split; [apply Hc; lia|]. split; [rewrite freq_counts; apply Hc; lia|].
    destruct n as [|[|[|n]]]; [lia | reflexivity | reflexivity |].
    unfold PolicyB.ngram_probs, PolicyB.calculate_probabilities.
    rewrite !freq_counts, !Hc by lia. reflexivity.
  - intros n Hn. unfold PolicyA.probabilities, PolicyA.calculate_probabilities.
    rewrite (proj2 (counts_nil_iff [] n)); [reflexivity|].
    apply length_zero_iff_nil. rewrite build_ngrams_length. simpl length. lia.
  - intros tokens n Hn. destruct (counts_probabilities_some tokens n ltac:(lia)) as [out ->].
    discriminate.
  - intro c. reflexivity.
Qed.

Lemma empty_input_division_safety_witness :
  PolicyA.probabilities [] 2 = Some [] /\
  PolicyA.probabilities ["a"; "b"]%string 5 <> None.
Proof.
  split.
  - exact (proj1 (proj2 (proj2 empty_input_division_safety)) 2 ltac:(lia)).
  - exact (proj1 (proj2 (proj2 (proj2 empty_input_division_safety))) _ 5 ltac:(lia)).
Defined.

(** ** Policy B lemmas *)

Module PolicyBFacts.
Import PolicyB.

Lemma get_map_val {K V W : Type} eq_dec (f : K -> V -> W) (d : list (K * V)) k :
  get eq_dec (map (fun kv => (fst kv, f (fst kv) (snd kv))) d) k =
  option_map (f k) (get eq_dec d k).
Proof.
  induction d as [|[k' v] r IH]; simpl; [reflexivity|].
  destruct (eq_dec k' k) as [->|]; [reflexivity | exact IH].
Qed.

Lemma get_calculate_probabilities items prev g :
  get gram_eq_dec (calculate_probabilities items prev) g =
  option_map (fun c => if 1 <? length g
                       then div_or_zero c (get_default gram_eq_dec prev (prefix g))
                       else div_or_zero c (sum_values items))
             (get gram_eq_dec items g).
Proof.
  unfold calculate_probabilities.
  rewrite <- (get_map_val gram_eq_dec
    (fun g c => if 1 <? length g
                then div_or_zero c (get_default gram_eq_dec prev (prefix g))
                else div_or_zero c (sum_values items))).
  f_equal. apply map_ext. intros [g' c]. simpl.
  destruct (1 <? length g'); reflexivity.
Qed.

Lemma get_bigram_probs tokens g :
  get gram_eq_dec (bigram_probs tokens) g =
  option_map (fun c => div_or_zero c (get_default string_dec (unigrams tokens)
                                                  (hd EmptyString g)))
             (get gram_eq_dec (freq tokens 2) g).
Proof.
  unfold bigram_probs.
  rewrite <- (get_map_val gram_eq_dec
    (fun g c => div_or_zero c (get_default string_dec (unigrams tokens) (hd EmptyString g)))).
  f_equal. apply map_ext. intros [g' c]. reflexivity.
Qed.

Lemma get_unigram_probs tokens g :
  get gram_eq_dec (unigram_probs tokens) g =
  match g with
  | [w] => option_map (fun c => div_or_zero c (sum_values (unigrams tokens)))
                      (get string_dec (unigrams tokens) w)
  | _ => None
  end.
Proof.
  unfold unigram_probs.
  generalize (sum_values (unigrams tokens)) as total.
  intro total. induction (unigrams tokens) as [|[w' c] r IH]; simpl.
  - destruct g as [|? [|]]; reflexivity.
  - rewrite IH.
    match goal with |- context [if ?x then _ else _] => destruct x as [E|E] end;
      destruct g as [|w [|]]; try discriminate; try reflexivity.
    all: destruct (string_dec w' w) as [Hw|Hw]; subst; try reflexivity.
    all: exfalso; first [injection E as E; contradiction | apply E; f_equal; assumption].
Qed.

Lemma div_or_zero_unit c d : c <= d -> (0 <= div_or_zero c d <= 1)%Q.
Proof.
  intro H. unfold div_or_zero.
  destruct (Nat.ltb_spec 0 d); [|split; discriminate].
  split.
  - apply Qle_shift_div_l; [unfold Qlt; simpl; lia|].
    rewrite Qmult_0_l. unfold Qle; simpl; lia.
  - apply Qle_shift_div_r; [unfold Qlt; simpl; lia|].
    rewrite Qmult_1_l. unfold Qle; simpl; lia.
Qed.

Lemma div_or_zero_eq c d :
  div_or_zero c d =
  if Nat.eqb d 0 then 0%Q else (inject_Z (Z.of_nat c) / inject_Z (Z.of_nat d))%Q.
Proof.
  unfold div_or_zero. destruct d; reflexivity.
Qed.

End PolicyBFacts.

Lemma freq_key_length (tokens : list token) (n : nat) (g : gram) (c : nat) :
  get gram_eq_dec (PolicyB.freq tokens n) g = Some c -> length g = n.
Proof.
  rewrite freq_counts. intro H. destruct (in_counts_pos _ _ _ _ H) as [-> Hp].
  apply (In_build_ngrams_length tokens). apply (count_occ_In gram_eq_dec). lia.
Qed.

(** C2. Policy B estimation: unigram probability is the count over the sum
    of all unigram counts; for orders [n >= 2] it is the count over the
    prefix count ([bigram[0]]'s unigram count for [n = 2]), and exactly [0]
    when the prefix count is [0], also in [calculate_probabilities] on
    arbitrary tables. *)
Theorem policyB_estimation :
  (forall (tokens : list token) (w : token) (c : nat),
     get string_dec (PolicyB.unigrams tokens) w = Some c ->
     get gram_eq_dec (PolicyB.ngram_probs tokens 1) [w] =
     Some (inject_Z (Z.of_nat c) / inject_Z (Z.of_nat (sum_values (PolicyB.unigrams tokens))))%Q) /\
  (forall (tokens : list token) (g : gram) (c : nat),
     get gram_eq_dec (PolicyB.freq tokens 2) g = Some c ->
     get gram_eq_dec (PolicyB.ngram_probs tokens 2) g =
     Some (let pc := get_default string_dec (PolicyB.unigrams tokens) (hd EmptyString g) in
           if Nat.eqb pc 0 then 0%Q
           else (inject_Z (Z.of_nat c) / inject_Z (Z.of_nat pc))%Q)) /\
  (forall (tokens : list token) (n : nat) (g : gram) (c : nat),
     3 <= n <= 5 ->
     get gram_eq_dec (PolicyB.freq tokens n) g = Some c ->
     get gram_eq_dec (PolicyB.ngram_probs tokens n) g =
     Some (let pc := get_default gram_eq_dec (PolicyB.freq tokens (n - 1)) (prefix g) in
           if Nat.eqb pc 0 then 0%Q
           else (inject_Z (Z.of_nat c) / inject_Z (Z.of_nat pc))%Q)) /\
  (forall (ngram_freq prev_ngram_freq : table) (g : gram) (c : nat),
     2 <= length g ->
     get gram_eq_dec ngram_freq g = Some c ->
     get_default gram_eq_dec prev_ngram_freq (prefix g) = 0 ->
     get gram_eq_dec (PolicyB.calculate_probabilities ngram_freq prev_ngram_freq) g
       = Some 0%Q).
Proof.
  split; [|split; [|split]].
  - intros tokens w c Hw. simpl. rewrite PolicyBFacts.get_unigram_probs, Hw. simpl.
    rewrite PolicyBFacts.div_or_zero_eq.
    pose proof (get_le_sum_values _ string_dec Hw) as Hle.
    unfold PolicyB.unigrams in *. rewrite get_Counter in Hw.
    destruct (Nat.eqb_spec (count_occ string_dec tokens w) 0); [discriminate|].
    injection Hw as <-.
    match goal with |- context [Nat.eqb ?s 0] => destruct (Nat.eqb_spec s 0) as [Hs|Hs] end;
      [|reflexivity].
    exfalso. apply n. apply Nat.le_0_r. rewrite <- Hs. exact Hle.
  - intros tokens g c Hg. simpl. rewrite PolicyBFacts.get_bigram_probs, Hg. simpl.
    rewrite PolicyBFacts.div_or_zero_eq. reflexivity.
  - intros tokens n g c Hn Hg.
    assert (PolicyB.ngram_probs tokens n
            = PolicyB.calculate_probabilities (PolicyB.freq tokens n) (PolicyB.freq tokens (n - 1)))
      as -> by (destruct n as [|[|[|n]]]; [lia | lia | lia | reflexivity]).
    rewrite PolicyBFacts.get_calculate_probabilities, Hg. simpl.
    rewrite (freq_key_length _ _ _ _ Hg).
    destruct (Nat.ltb_spec 1 n); [|lia].
    rewrite PolicyBFacts.div_or_zero_eq. reflexivity.
  - intros items prev g c Hlen Hg H0.
    rewrite PolicyBFacts.get_calculate_probabilities, Hg, H0. simpl.
    destruct (Nat.ltb_spec 1 (length g)); [reflexivity | lia].
Qed.

Lemma policyB_estimation_witness :
  get gram_eq_dec (PolicyB.ngram_probs ["a"; "b"; "a"; "b"; "c"]%string 2) ["a"; "b"]%string
    = Some (2 # 2)%Q /\
  get gram_eq_dec (PolicyB.calculate_probabilities [(["x"; "y"; "z"]%string, 4)] [])
      ["x"; "y"; "z"]%string = Some 0%Q.
Proof.
  split.
  - rewrite (proj1 (proj2 policyB_estimation) ["a"; "b"; "a"; "b"; "c"]%string
               ["a"; "b"]%string 2 ltac:(vm_compute; reflexivity)).
    vm_compute. reflexivity.
  - exact (proj2 (proj2 (proj2 policyB_estimation)) [(["x"; "y"; "z"]%string, 4)] []
             ["x"; "y"; "z"]%string 4
             ltac:(simpl; lia) ltac:(vm_compute; reflexivity) ltac:(vm_compute; reflexivity)).
Defined.

(** C4. Policy B range: on tables built from one token sequence, every
    probability of orders [1..5] computed by [process_language] lies in
    [[0, 1]]. *)
Theorem policyB_range (tokens : list token) (n : nat) (g : gram) (p : Q) :
  1 <= n <= 5 ->
  get gram_eq_dec (PolicyB.ngram_probs tokens n) g = Some p ->
  (0 <= p <= 1)%Q.
Proof.
  intros Hn Hp. destruct n as [|[|[|n]]]; [lia | | |].
  - simpl in Hp. rewrite PolicyBFacts.get_unigram_probs in Hp.
    destruct g as [|w [|]]; try discriminate.
    destruct (get string_dec (PolicyB.unigrams tokens) w) as [c|] eqn:Hw; [|discriminate].
    injection Hp as <-. apply PolicyBFacts.div_or_zero_unit.
    exact (get_le_sum_values _ string_dec Hw).
  - simpl in Hp. rewrite PolicyBFacts.get_bigram_probs in Hp.
    destruct (get gram_eq_dec (PolicyB.freq tokens 2) g) as [c|] eqn:Hg; [|discriminate].
    injection Hp as <-.
    destruct (bigram_unigram_dominance tokens g c Hg) as [c' [Hu Hle]].
    unfold get_default. rewrite Hu. apply PolicyBFacts.div_or_zero_unit, Hle.
  - change (PolicyB.ngram_probs tokens (S (S (S n))))
      with (PolicyB.calculate_probabilities (PolicyB.freq tokens (S (S (S n))))
                                            (PolicyB.freq tokens (S (S (S n)) - 1))) in Hp.
    rewrite PolicyBFacts.get_calculate_probabilities in Hp.
    destruct (get gram_eq_dec (PolicyB.freq tokens (S (S (S n)))) g) as [c|] eqn:Hg;
      [|discriminate].
    injection Hp as <-.
    rewrite (freq_key_length _ _ _ _ Hg). simpl Nat.ltb.
    destruct (freq_prefix_dominance tokens (S (S (S n))) g c ltac:(lia) Hg)
      as [c' [Hq Hle]].
    replace (S (S (S n)) - 1) with (S (S n)) in * by lia.
    unfold get_default. rewrite Hq. apply PolicyBFacts.div_or_zero_unit, Hle.
Qed.

Lemma policyB_range_witness :
  (0 <= 2 # 2 <= 1)%Q.
Proof.
  apply (policyB_range ["a"; "b"; "a"; "b"; "c"]%string 2 ["a"; "b"]%string);
    [lia | vm_compute; reflexivity].
Defined.

(** C6. N-gram construction: [build_ngrams tokens n] has [max(0, L - n + 1)]
    grams; gram [i] has length [n] and its [j]-th token is [tokens[i + j]],
    in the order of the input and without deduplication; for [n > L] the
    result is empty. *)
Theorem build_ngrams_spec (tokens : list token) (n : nat) :
  length (build_ngrams tokens n) = Nat.max 0 (length tokens + 1 - n) /\
  (forall i, i < length tokens + 1 - n ->
     exists g, nth_error (build_ngrams tokens n) i = Some g /\ length g = n /\
       forall j, j < n -> nth_error g j = nth_error tokens (i + j)) /\
  (length tokens < n -> build_ngrams tokens n = []).
Proof.
  split; [|split].
  - rewrite build_ngrams_length. lia.
  - intros i Hi. exists (slice tokens i (i + n)).
    split; [apply build_ngrams_nth; exact Hi|]. split.
    + apply slice_length. lia.
    + intros j Hj. rewrite slice_nth. destruct (Nat.ltb_spec j n); [reflexivity | lia].
  - intro H. apply length_zero_iff_nil. rewrite build_ngrams_length. lia.
Qed.

Lemma build_ngrams_spec_witness :
  nth_error (build_ngrams ["a"; "b"; "a"; "b"; "c"]%string 2) 3 = Some ["b"; "c"]%string /\
  build_ngrams ["a"; "b"]%string 3 = [].
Proof.
  split.
  - destruct (proj1 (proj2 (build_ngrams_spec ["a"; "b"; "a"; "b"; "c"]%string 2)) 3
                ltac:(simpl; lia)) as [g [H _]].
    rewrite H. vm_compute in H. injection H as <-. reflexivity.
  - exact (proj2 (proj2 (build_ngrams_spec ["a"; "b"]%string 3)) ltac:(simpl; lia)).
Defined.

(** ** Normalizer lemmas *)

Module NormalizeFacts.
Import Normalize.
Open Scope N_scope.

Lemma sub_tags_id fuel l : ~ In 60 l -> sub_tags fuel l = l.
Proof.
  revert l; induction fuel as [|f IH]; intros [|c r] H; simpl; try reflexivity.
  destruct (N.eqb_spec c 60) as [->|]; [exfalso; apply H; left; reflexivity|].
  rewrite IH; [reflexivity | intro; apply H; right; assumption].
Qed.

Lemma sub_templates_id fuel l : ~ In 123 l -> sub_templates fuel l = l.
Proof.
  revert l; induction fuel as [|f IH]; intros [|c r] H; simpl; try reflexivity.
  destruct (N.eqb_spec c 123) as [->|]; [exfalso; apply H; left; reflexivity|].
  destruct r as [|c2 r']; [reflexivity|]. simpl.
  rewrite IH; [reflexivity | intro; apply H; right; assumption].
Qed.

Lemma sub_links_id fuel l : ~ In 91 l -> sub_links fuel l = l.
Proof.
  revert l; induction fuel as [|f IH]; intros [|c r] H; simpl; try reflexivity.
  destruct (N.eqb_spec c 91) as [->|]; [exfalso; apply H; left; reflexivity|].
  destruct r as [|c2 r']; [reflexivity|]. simpl.
  rewrite IH; [reflexivity | intro; apply H; right; assumption].
Qed.

Lemma sub_external_id fuel l : ~ In 91 l -> sub_external fuel l = l.
Proof.
  revert l; induction fuel as [|f IH]; intros [|c r] H; simpl; try reflexivity.
  destruct (N.eqb_spec c 91) as [->|]; [exfalso; apply H; left; reflexivity|].
  rewrite IH; [reflexivity | intro; apply H; right; assumption].
Qed.

Lemma allowed_not_markup c :
  allowed c = true -> c <> 60 /\ c <> 123 /\ c <> 91.
Proof.
  intro H. repeat split; intros ->; discriminate H.
Qed.

Lemma sub_disallowed_id l :
  (forall c, In c l -> allowed c = true) -> sub_disallowed l = l.
Proof.
  induction l as [|c r IH]; intro H; simpl; [reflexivity|].
  rewrite (H c (or_introl eq_refl)), IH; [reflexivity|].
  intros; apply H; right; assumption.
Qed.

Lemma sub_disallowed_allowed l c : In c (sub_disallowed l) -> allowed c = true.
Proof.
  unfold sub_disallowed. intro H. apply in_map_iff in H as [c' [<- _]].
  destruct (allowed c') eqn:E; [exact E | reflexivity].
Qed.

Lemma no_double_space_cons2 a b t :
  no_double_space (a :: b :: t) = negb (is_space a && is_space b) && no_double_space (b :: t).
Proof. reflexivity. Qed.

Lemma collapse_aux_In b l c :
  In c (collapse_aux b l) -> c = 32 \/ (In c l /\ is_space c = false).
Proof.
  revert b; induction l as [|x r IH]; intros b H; simpl in H; [destruct H|].
  destruct (is_space x) eqn:Ex; [destruct b|].
  - destruct (IH _ H) as [|[]]; [left | right; split; [right|]]; assumption.
  - destruct H as [<-|H]; [left; reflexivity|].
    destruct (IH _ H) as [|[]]; [left | right; split; [right|]]; assumption.
  - destruct H as [<-|H]; [right; split; [left; reflexivity | exact Ex]|].
    destruct (IH _ H) as [|[]]; [left | right; split; [right|]]; assumption.
Qed.

Lemma collapse_aux_shape b l :
  no_double_space (collapse_aux b l) = true /\
  (b = true -> starts_nonspace (collapse_aux b l)).
Proof.
  revert b; induction l as [|x r IH]; intro b; simpl; [split; [reflexivity | trivial]|].
  destruct (is_space x) eqn:Ex; [destruct b|].
  - exact (IH true).
  - destruct (IH true) as [H1 H2]. specialize (H2 eq_refl).
    split; [|discriminate].
    destruct (collapse_aux true r) as [|y o]; [reflexivity|].
    simpl in H2. rewrite no_double_space_cons2, H2, andb_false_r. exact H1.
  - destruct (IH false) as [H1 _]. split; [|intros _; exact Ex].
    destruct (collapse_aux false r) as [|y o]; [reflexivity|].
    rewrite no_double_space_cons2, Ex. exact H1.
Qed.

Lemma collapse_aux_id b l :
  (forall c, In c l -> is_space c = true -> c = 32) ->
  no_double_space l = true ->
  (b = true -> starts_nonspace l) ->
  collapse_aux b l = l.
Proof.
  revert b; induction l as [|x r IH]; intros b H32 Hnd Hst; simpl; [reflexivity|].
  assert (Hnd' : no_double_space r = true).
  { destruct r as [|y r']; [reflexivity|]. simpl in Hnd.
    apply andb_prop in Hnd as [_ Hnd]. exact Hnd. }
  assert (H32' : forall c, In c r -> is_space c = true -> c = 32)
    by (intros; apply H32; [right|]; assumption).
  destruct (is_space x) eqn:Ex.
  - destruct b; [specialize (Hst eq_refl); simpl in Hst; congruence|].
    rewrite (H32 x (or_introl eq_refl) Ex). f_equal. apply IH; [exact H32' | exact Hnd'|].
    intros _. destruct r as [|y r']; simpl; [trivial|].
    simpl in Hnd. rewrite Ex in Hnd. destruct (is_space y); [discriminate | reflexivity].
  - f_equal. apply IH; [exact H32' | exact Hnd' | discriminate].
Qed.

Lemma no_double_space_app_l l1 l2 :
  no_double_space (l1 ++ l2) = true -> no_double_space l2 = true.
Proof.
  induction l1 as [|a l1 IH]; simpl; [auto|].
  destruct (l1 ++ l2) as [|b t] eqn:E.
  - apply app_eq_nil in E as [_ ->]. reflexivity.
  - intro H. apply andb_prop in H as [_ H]. exact (IH H).
Qed.

Lemma no_double_space_app_r l1 l2 :
  no_double_space (l1 ++ l2) = true -> no_double_space l1 = true.
Proof.
  induction l1 as [|a l1 IH]; simpl; [auto|].
  destruct l1 as [|b t]; [reflexivity|].
  simpl. intro H. apply andb_prop in H as [H1 H2].
  rewrite H1. simpl. exact (IH H2).
Qed.

Lemma no_double_space_split l1 a b l2 :
  no_double_space (l1 ++ a :: b :: l2) = true ->
  ~ (is_space a = true /\ is_space b = true).
Proof.
  intros H [Ha Hb].
  apply no_double_space_app_l in H. simpl in H. rewrite Ha, Hb in H. discriminate.
Qed.

Lemma lstrip_suffix l : exists p, l = p ++ lstrip l.
Proof.
  induction l as [|c r [p IH]]; simpl; [exists []; reflexivity|].
  destruct (is_space c); [exists (c :: p); simpl; f_equal; exact IH | exists []; reflexivity].
Qed.

Lemma lstrip_starts l : starts_nonspace (lstrip l).
Proof.
  induction l as [|c r IH]; simpl; [trivial|].
  destruct (is_space c) eqn:E; [exact IH | exact E].
Qed.

Lemma lstrip_id l : starts_nonspace l -> lstrip l = l.
Proof. destruct l as [|c r]; simpl; [reflexivity|]. intros ->. reflexivity. Qed.

Lemma lstrip_app_nonspace l c :
  is_space c = false -> lstrip (l ++ [c]) = lstrip l ++ [c].
Proof.
  intro Hc. induction l as [|a l IH]; simpl; [rewrite Hc; reflexivity|].
  destruct (is_space a); [exact IH | reflexivity].
Qed.

Lemma rstrip_prefix l : exists s, l = rstrip l ++ s.
Proof.
  unfold rstrip. destruct (lstrip_suffix (rev l)) as [p Hp].
  exists (rev p). rewrite <- rev_app_distr, <- Hp, rev_involutive. reflexivity.
Qed.

Lemma rstrip_cons c t : is_space c = false -> rstrip (c :: t) = c :: rstrip t.
Proof.
  intro Hc. unfold rstrip. simpl. rewrite lstrip_app_nonspace by exact Hc.
  rewrite rev_app_distr. reflexivity.
Qed.

Lemma rstrip_ends l l1 c : rstrip l = l1 ++ [c] -> is_space c = false.
Proof.
  unfold rstrip. pose proof (lstrip_starts (rev l)) as H.
  destruct (lstrip (rev l)) as [|c' z]; simpl; intro E.
  - destruct l1; discriminate.
  - apply app_inj_tail in E as [_ <-]. exact H.
Qed.

Lemma rstrip_id l : ends_nonspace l -> rstrip l = l.
Proof.
  intro H. unfold rstrip.
  destruct l as [|x l'] using rev_ind; [reflexivity|].
  rewrite rev_app_distr. simpl. rewrite (H l' x eq_refl). simpl. rewrite rev_involutive. reflexivity.
Qed.

End NormalizeFacts.

Module NormalizeShape.
Import Normalize NormalizeFacts.
Open Scope N_scope.

Lemma strip_infix o : exists p s, o = p ++ strip o ++ s.
Proof.
  destruct (lstrip_suffix o) as [p Hp]. destruct (rstrip_prefix (lstrip o)) as [s Hs].
  exists p, s. unfold strip. rewrite <- Hs. exact Hp.
Qed.

Lemma strip_starts o : starts_nonspace (strip o).
Proof.
  unfold strip. pose proof (lstrip_starts o) as H.
  destruct (lstrip o) as [|c t]; [reflexivity|].
  simpl in H. rewrite rstrip_cons by exact H. exact H.
Qed.

Lemma strip_id l : starts_nonspace l -> ends_nonspace l -> strip l = l.
Proof. intros H1 H2. unfold strip. rewrite lstrip_id by exact H1. apply rstrip_id, H2. Qed.

Lemma clean_text_shape x :
  let y := clean_text x in
  (forall c, In c y -> allowed c = true) /\
  (forall c, In c y -> is_space c = true -> c = 32) /\
  no_double_space y = true /\ starts_nonspace y /\ ends_nonspace y.
Proof.
  unfold clean_text. cbv zeta.
  set (m := sub_disallowed _).
  set (o := collapse m).
  destruct (strip_infix o) as [p [s Ho]].
  assert (Hin : forall c, In c (strip o) -> c = 32 \/ (In c m /\ is_space c = false)).
  { intros c Hc. apply (collapse_aux_In false m c). fold (collapse m). fold o.
    rewrite Ho. apply in_or_app. right. apply in_or_app. left. exact Hc. }
  split; [|split; [|split; [|split]]].
  - intros c Hc. destruct (Hin c Hc) as [->|[Hm _]]; [reflexivity|].
    exact (sub_disallowed_allowed _ _ Hm).
  - intros c Hc Hsp. destruct (Hin c Hc) as [->|[_ Hns]]; [reflexivity | congruence].
  - destruct (collapse_aux_shape false m) as [Hnd _]. fold (collapse m) in Hnd. fold o in Hnd.
    rewrite Ho in Hnd. apply no_double_space_app_l, no_double_space_app_r in Hnd. exact Hnd.
  - apply strip_starts.
  - intros l1 c E. unfold strip in E. exact (rstrip_ends _ _ _ E).
Qed.

Lemma clean_text_fixed y :
  (forall c, In c y -> allowed c = true) ->
  (forall c, In c y -> is_space c = true -> c = 32) ->
  no_double_space y = true -> starts_nonspace y -> ends_nonspace y ->
  clean_text y = y.
Proof.
  intros Hal H32 Hnd Hst Hen.
  assert (Hno : forall d, allowed d = false -> ~ In d y)
    by (intros d Hd Hy; rewrite (Hal d Hy) in Hd; discriminate).
  unfold clean_text, run.
  rewrite sub_tags_id by (apply Hno; reflexivity).
  rewrite sub_templates_id by (apply Hno; reflexivity).
  rewrite sub_links_id by (apply Hno; reflexivity).
  rewrite sub_external_id by (apply Hno; reflexivity).
  rewrite sub_disallowed_id by exact Hal.
  unfold collapse. rewrite collapse_aux_id; [| exact H32 | exact Hnd | discriminate].
  apply strip_id; assumption.
Qed.

End NormalizeShape.

(** C5. [clean_text] is idempotent: cleaning already-cleaned text changes
    nothing. *)
Theorem clean_text_idempotent (x : Normalize.text) :
  Normalize.clean_text (Normalize.clean_text x) = Normalize.clean_text x.
Proof.
  destruct (NormalizeShape.clean_text_shape x) as [H1 [H2 [H3 [H4 H5]]]].
  apply NormalizeShape.clean_text_fixed; assumption.
Qed.

(** C7. Output of [clean_text]: every character is in the allowed class,
    no two adjacent characters are both whitespace, and the text neither
    starts nor ends with whitespace. *)
Theorem clean_text_output_charset (x : Normalize.text) :
  let y := Normalize.clean_text x in
  (forall c, In c y -> Normalize.allowed c = true) /\
  (forall l1 a b l2, y = l1 ++ a :: b :: l2 ->
     ~ (Normalize.is_space a = true /\ Normalize.is_space b = true)) /\
  (forall c t, y = c :: t -> Normalize.is_space c = false) /\
  (forall l1 c, y = l1 ++ [c] -> Normalize.is_space c = false).
Proof.
  cbv zeta.
  destruct (NormalizeShape.clean_text_shape x) as [H1 [_ [H3 [H4 H5]]]].
  split; [exact H1|]. split; [|split; [|exact H5]].
  - intros l1 a b l2 E. rewrite E in H3. exact (NormalizeFacts.no_double_space_split _ _ _ _ H3).
  - intros c t E. unfold Normalize.starts_nonspace in H4. rewrite E in H4. exact H4.
Qed.

Lemma clean_text_output_charset_witness :
  Normalize.clean_text [32; 60; 98; 62; 97; 9; 9; 33; 98; 32]%N = [97; 32; 98]%N /\
  Normalize.allowed 98%N = true.
Proof.
  split; [vm_compute; reflexivity|].
  apply (proj1 (clean_text_output_charset [32; 60; 98; 62; 97; 9; 9; 33; 98; 32]%N) 98%N).
  vm_compute. right; right; left; reflexivity.
Defined.

(** C9. Missing input file in the multi-file driver of ngrams_tp.py: the
    missing entry contributes exactly one warning and no written artifact,
    the entries before and after it are processed as usual, and the run
    ends with its completion message. *)
Theorem driver_missing_file (files : Driver.fs) (config pre post : list (Driver.lang * Driver.path))
        (l : Driver.lang) (p : Driver.path) :
  config = pre ++ (l, p) :: post ->
  files p = None ->
  Driver.main files config =
    flat_map (Driver.main_entry files) pre ++ [Driver.Warning_not_found p] ++
    flat_map (Driver.main_entry files) post ++ [Driver.All_complete] /\
  Driver.main_entry files (l, p) = [Driver.Warning_not_found p] /\
  (forall a, ~ In (Driver.Write l a) (Driver.main_entry files (l, p))).
Proof.
  intros -> Hp.
  assert (He : Driver.main_entry files (l, p) = [Driver.Warning_not_found p])
    by (simpl; rewrite Hp; reflexivity).
  split; [|split; [exact He|]].
  - unfold Driver.main. rewrite flat_map_app. cbn [flat_map].
    rewrite He, <- !app_assoc. reflexivity.
  - intros a. rewrite He. intros [H|[]]. discriminate.
Qed.

Lemma driver_missing_file_witness :
  Driver.main sample_files [("arabic", "ara.txt"); ("english", "eng.txt")]%string =
    [Driver.Warning_not_found "ara.txt"%string] ++
    flat_map (Driver.main_entry sample_files) [("english", "eng.txt")]%string ++
    [Driver.All_complete].
Proof.
  exact (proj1 (driver_missing_file sample_files _ [] [("english", "eng.txt")]%string
                  "arabic"%string "ara.txt"%string eq_refl eq_refl)).
Defined.

(* ================================================================== *)
(** * Further properties of the code *)

(** ** Count tables *)

Lemma length_le_sum_values {K : Type} (d : list (K * nat)) :
  (forall kv, In kv d -> 0 < snd kv) -> length d <= sum_values d.
Proof.
  induction d as [|[k v] r IH]; intro H; [simpl; lia|].
  change (S (length r) <= v + sum_values r).
  assert (0 < v) by (apply (H (k, v)); left; reflexivity).
  assert (length r <= sum_values r) by (apply IH; intros kv Hkv; apply H; right; exact Hkv).
  lia.
Qed.

Lemma counts_In (tokens : list token) (n : nat) (g : gram) (c : nat) :
  In (g, c) (PolicyA.counts tokens n) ->
  In g (build_ngrams tokens n) /\ length g = n /\
  c = count_occ gram_eq_dec (build_ngrams tokens n) g /\ 0 < c.
Proof.
  intro H. apply (In_Counter _ gram_eq_dec) in H.
  destruct (in_counts_pos tokens n g c H) as [E P].
  assert (Hin : In g (build_ngrams tokens n)) by (apply (count_occ_In gram_eq_dec); lia).
  split; [exact Hin | split; [exact (In_build_ngrams_length tokens n g Hin) | auto]].
Qed.

Section FilterCounter.
Variable K : Type.
Variable eq_dec : forall x y : K, {x = y} + {x <> y}.
Variable P : K -> bool.

Lemma sum_values_filter_counter_add c x :
  sum_values (filter (fun kv => P (fst kv)) (counter_add eq_dec c x)) =
  sum_values (filter (fun kv => P (fst kv)) c) + (if P x then 1 else 0).
Proof.
  unfold sum_values. induction c as [|[k v] r IH]; simpl.
  - destruct (P x); reflexivity.
  - destruct (eq_dec k x) as [->|Hne]; simpl.
    + destruct (P x); simpl; lia.
    + destruct (P k); simpl; rewrite IH; lia.
Qed.

Lemma sum_values_filter_Counter xs :
  sum_values (filter (fun kv => P (fst kv)) (Counter eq_dec xs)) = length (filter P xs).
Proof.
  unfold Counter, counter_update.
  assert (H : forall c, sum_values (filter (fun kv => P (fst kv)) (fold_left (counter_add eq_dec) xs c)) =
                        sum_values (filter (fun kv => P (fst kv)) c) + length (filter P xs)).
  { induction xs as [|x xs IH]; intro c; simpl; [lia|].
    rewrite IH, sum_values_filter_counter_add. destruct (P x); simpl; lia. }
  rewrite H. reflexivity.
Qed.

End FilterCounter.

Lemma count_occ_map_filter {A : Type} (f : A -> gram) (l : list A) (p : gram) :
  count_occ gram_eq_dec (map f l) p =
  length (filter (fun x => if gram_eq_dec (f x) p then true else false) l).
Proof.
  induction l as [|x l IH]; simpl; [reflexivity|].
  destruct (gram_eq_dec (f x) p); simpl; rewrite IH; reflexivity.
Qed.

(** The windows of order [n - 1] are the prefixes of the windows of
    order [n], then the last [n - 1] tokens. *)
Lemma build_ngrams_prefix_last (tokens : list token) (n : nat) :
  2 <= n -> n <= length tokens + 1 ->
  build_ngrams tokens (n - 1) =
  map prefix (build_ngrams tokens n) ++ [skipn (length tokens - (n - 1)) tokens].
Proof.
  intros H2 HL.
  destruct (build_ngrams_prefix_app tokens n ltac:(lia)) as [rest E].
  assert (Hlen : length rest = 1).
  { apply (f_equal (@length gram)) in E.
    rewrite length_app, length_map, !build_ngrams_length in E. lia. }
  destruct rest as [|r [|]]; simpl in Hlen; try discriminate.
  rewrite E. f_equal. f_equal.
  assert (Hn := build_ngrams_nth tokens (n - 1) (length tokens + 1 - n) ltac:(lia)).
  rewrite E, nth_error_app2 in Hn by (rewrite length_map, build_ngrams_length; lia).
  rewrite length_map, build_ngrams_length, Nat.sub_diag in Hn. simpl in Hn.
  injection Hn as ->. unfold slice.
  replace (length tokens + 1 - n) with (length tokens - (n - 1)) by lia.
  apply firstn_all2. rewrite length_skipn. lia.
Qed.

Lemma Qsum_div_or_zero {K : Type} (l : list (K * nat)) (d : nat) :
  0 < d ->
  Qsum (map (fun kv => PolicyB.div_or_zero (snd kv) d) l) == PolicyB.div_or_zero (sum_values l) d.
Proof.
  intro Hd. unfold PolicyB.div_or_zero. destruct (Nat.ltb_spec 0 d); [|lia].
  induction l as [|[k v] r IH].
  - unfold Qsum, Qdiv. simpl. rewrite Qmult_0_l. reflexivity.
  - change (Qsum (map (fun kv => (inject_Z (Z.of_nat (snd kv)) / inject_Z (Z.of_nat d))%Q) ((k, v) :: r)))
      with (inject_Z (Z.of_nat v) / inject_Z (Z.of_nat d) +
            Qsum (map (fun kv => (inject_Z (Z.of_nat (snd kv)) / inject_Z (Z.of_nat d))%Q) r))%Q.
    rewrite IH. change (sum_values ((k, v) :: r)) with (v + sum_values r).
    rewrite Nat2Z.inj_add, inject_Z_plus. unfold Qdiv. rewrite Qmult_plus_distr_l. reflexivity.
Qed.

Lemma ngram_probs_counts (tokens : list token) (n : nat) :
  2 <= n ->
  PolicyB.ngram_probs tokens n =
  map (fun kv => (fst kv, PolicyB.div_or_zero (snd kv)
                    (count_occ gram_eq_dec (build_ngrams tokens (n - 1)) (prefix (fst kv)))))
      (PolicyB.freq tokens n).
Proof.
  intro Hn. destruct n as [|[|[|n]]]; [lia | lia | |].
  - simpl. unfold PolicyB.bigram_probs. apply map_ext_in. intros [g c] Hin.
    rewrite freq_counts in Hin. destruct (counts_In _ _ _ _ Hin) as [_ [Hlen _]].
    destruct g as [|a [|b [|]]]; simpl in Hlen; try discriminate.
    simpl. unfold PolicyB.unigrams. rewrite get_default_Counter.
    rewrite build_ngrams_1, count_occ_singletons. reflexivity.
  - change (PolicyB.ngram_probs tokens (S (S (S n))))
      with (PolicyB.calculate_probabilities (PolicyB.freq tokens (S (S (S n))))
                                            (PolicyB.freq tokens (S (S (S n)) - 1))).
    unfold PolicyB.calculate_probabilities. apply map_ext_in. intros [g c] Hin.
    rewrite freq_counts in Hin. destruct (counts_In _ _ _ _ Hin) as [_ [Hlen _]].
    simpl fst. simpl snd. rewrite Hlen. simpl Nat.ltb. cbv iota.
    unfold PolicyB.freq. rewrite get_default_Counter. reflexivity.
Qed.

Lemma filter_map_fst {A B C : Type} (P : A -> bool) (h : A * B -> C) (l : list (A * B)) :
  filter (fun kv => P (fst kv)) (map (fun kv => (fst kv, h kv)) l) =
  map (fun kv => (fst kv, h kv)) (filter (fun kv => P (fst kv)) l).
Proof.
  induction l as [|kv l IH]; simpl; [reflexivity|].
  destruct (P (fst kv)); simpl; rewrite IH; reflexivity.
Qed.

(** X1. Every count table of order [n] built by [process_corpus] (and the
    FreqDist tables of [process_language], which are the same) has unique
    keys; each key is a window of [n] tokens counted by its number of
    occurrences; the counts add up to the number of windows,
    [len(tokens) - n + 1], which also bounds the number of keys. *)
Theorem counts_table_invariants (tokens : list token) (n : nat) :
  NoDup (map fst (PolicyA.counts tokens n)) /\
  (forall g c, In (g, c) (PolicyA.counts tokens n) ->
     length g = n /\ c = count_occ gram_eq_dec (build_ngrams tokens n) g /\ 0 < c) /\
  sum_values (PolicyA.counts tokens n) = length tokens + 1 - n /\
  length (PolicyA.counts tokens n) <= length tokens + 1 - n.
Proof.
  assert (Hs : sum_values (PolicyA.counts tokens n) = length tokens + 1 - n).
  { unfold PolicyA.counts. change (counter_update gram_eq_dec [] (build_ngrams tokens n))
      with (Counter gram_eq_dec (build_ngrams tokens n)).
    rewrite sum_values_Counter. apply build_ngrams_length. }
  split; [apply (NoDup_keys_Counter _ gram_eq_dec) | split; [|split; [exact Hs|]]].
  - intros g c H. destruct (counts_In _ _ _ _ H) as [_ H']. exact H'.
  - rewrite <- Hs. apply length_le_sum_values. intros [g c] H.
    exact (proj2 (proj2 (proj2 (counts_In _ _ _ _ H)))).
Qed.

(** X2. Policy B unigram probabilities form a distribution: for a
    non-empty token list, the values [count / total] of [ngram_probs[1]]
    sum to 1 in exact rational arithmetic (the float values of the code
    only up to rounding). *)
Theorem policyB_unigram_probs_sum (tokens : list token) :
  tokens <> [] -> Qsum (map snd (PolicyB.unigram_probs tokens)) == 1.
Proof.
  intro Hne. unfold PolicyB.unigram_probs.
  set (uni := PolicyB.unigrams tokens).
  set (total := sum_values uni).
  assert (Ht : total = length tokens) by apply sum_values_Counter.
  assert (Hpos : 0 < total) by (rewrite Ht; destruct tokens; [congruence | simpl; lia]).
  rewrite map_map, (map_ext _ (fun kv => PolicyB.div_or_zero (snd kv) total))
    by (intros [w c]; reflexivity).
  rewrite Qsum_div_or_zero by exact Hpos. fold total.
  unfold PolicyB.div_or_zero. destruct (Nat.ltb_spec 0 total); [|lia].
  unfold Qdiv. apply Qmult_inv_r. unfold Qeq. simpl. lia.
Qed.

Lemma policyB_unigram_probs_sum_witness :
  Qsum (map snd (PolicyB.unigram_probs ["a"; "b"; "a"]%string)) == 1.
Proof. apply policyB_unigram_probs_sum. discriminate. Defined.

(** X3. Policy B conditional probabilities of order [n >= 2] form a
    distribution over the continuations of each counted prefix [p]: the
    probabilities of the n-grams extending [p] sum to 1, except when [p] is
    the final window (the last [n - 1] tokens), which has no continuation
    for one of its [c] occurrences: then they sum to [(c - 1) / c]. *)
Theorem policyB_conditional_sum (tokens : list token) (n : nat) (p : gram) (c : nat) :
  2 <= n ->
  get gram_eq_dec (PolicyB.freq tokens (n - 1)) p = Some c ->
  Qsum (map snd (filter (fun gq => if gram_eq_dec (prefix (fst gq)) p then true else false)
                        (PolicyB.ngram_probs tokens n)))
  == PolicyB.div_or_zero
       (if gram_eq_dec p (skipn (length tokens - (n - 1)) tokens) then c - 1 else c) c.
Proof.
  intros Hn Hp. rewrite freq_counts in Hp.
  destruct (in_counts_pos _ _ _ _ Hp) as [Hc Hpos].
  assert (HL : n <= length tokens + 1).
  { assert (Hb : build_ngrams tokens (n - 1) <> []) by (intro E; rewrite E in Hc; simpl in Hc; lia).
    destruct (Nat.le_gt_cases n (length tokens + 1)) as [|Hgt]; [assumption|].
    exfalso. apply Hb, length_zero_iff_nil. rewrite build_ngrams_length. lia. }
  set (P := fun g : gram => if gram_eq_dec (prefix g) p then true else false).
  rewrite ngram_probs_counts by exact Hn.
  change (fun gq : gram * Q => if gram_eq_dec (prefix (fst gq)) p then true else false)
    with (fun gq : gram * Q => P (fst gq)).
  rewrite (filter_map_fst P
    (fun kv => PolicyB.div_or_zero (snd kv)
                 (count_occ gram_eq_dec (build_ngrams tokens (n - 1)) (prefix (fst kv))))).
  rewrite map_map. simpl.
  rewrite (map_ext_in _ (fun kv => PolicyB.div_or_zero (snd kv) c)).
  2: { intros [g k] Hin. apply filter_In in Hin as [_ Hg]. unfold P in Hg. cbn [fst] in Hg.
       cbn [fst snd]. destruct (gram_eq_dec (prefix g) p) as [E|]; [|discriminate].
       rewrite E, <- Hc. reflexivity. }
  rewrite Qsum_div_or_zero by exact Hpos.
  unfold PolicyB.freq. rewrite (sum_values_filter_Counter _ gram_eq_dec P).
  assert (Hcnt : length (filter P (build_ngrams tokens n)) =
                 if gram_eq_dec p (skipn (length tokens - (n - 1)) tokens) then c - 1 else c).
  { rewrite Hc, build_ngrams_prefix_last by assumption.
    rewrite count_occ_app, count_occ_map_filter. fold P. cbn [count_occ].
    destruct (gram_eq_dec (skipn (length tokens - (n - 1)) tokens) p) as [E|E];
      destruct (gram_eq_dec p (skipn (length tokens - (n - 1)) tokens)) as [E'|E'];
      try (subst; congruence); lia. }
  rewrite Hcnt. reflexivity.
Qed.

Lemma policyB_conditional_sum_witness :
  get gram_eq_dec (PolicyB.freq ["a"; "b"; "a"; "c"; "a"]%string 1) ["a"]%string = Some 3 /\
  Qsum (map snd (filter (fun gq => if gram_eq_dec (prefix (fst gq)) ["a"]%string then true else false)
                        (PolicyB.ngram_probs ["a"; "b"; "a"; "c"; "a"]%string 2)))
  == PolicyB.div_or_zero 2 3.
Proof.
  split; [vm_compute; reflexivity|].
  exact (policyB_conditional_sum ["a"; "b"; "a"; "c"; "a"]%string 2 ["a"]%string 3
           ltac:(lia) ltac:(vm_compute; reflexivity)).
Defined.

(** ** Policy A scores *)

Lemma prob_lt c1 c2 pc V :
  0 < pc + V -> c1 < c2 -> (PolicyA.prob c1 pc V < PolicyA.prob c2 pc V)%Q.
Proof.
  intros Hd Hc. unfold PolicyA.prob, Qdiv.
  apply Qmult_lt_r; [apply Qinv_lt_0_compat; unfold Qlt; simpl; lia|].
  unfold Qlt; simpl; lia.
Qed.

Lemma score_lt p q : (0 < p)%Q -> (p < q)%Q -> (PolicyA.score q < PolicyA.score p)%R.
Proof.
  intros H0 H1. unfold PolicyA.score.
  apply Qlt_Rlt in H0. apply Qlt_Rlt in H1.
  replace (Q2R 0) with 0%R in H0 by (unfold Q2R; simpl; field).
  pose proof (ln_increasing _ _ H0 H1). lra.
Qed.

(** X4. Within one table of [process_corpus], of two grams sharing their
    prefix the more frequent one gets the strictly smaller score
    (is the more likely continuation). *)
Theorem policyA_score_antitone (tokens : list token) (n : nat) (g1 g2 : gram) (c1 c2 : nat) :
  1 <= n ->
  get gram_eq_dec (PolicyA.counts tokens n) g1 = Some c1 ->
  get gram_eq_dec (PolicyA.counts tokens n) g2 = Some c2 ->
  prefix g1 = prefix g2 -> c1 < c2 ->
  exists out s1 s2, PolicyA.probabilities tokens n = Some out /\
    get gram_eq_dec out g1 = Some s1 /\ get gram_eq_dec out g2 = Some s2 /\ (s2 < s1)%R.
Proof.
  intros Hn H1 H2 Hpre Hlt.
  destruct (counts_probabilities_some tokens n Hn) as [out Hout].
  pose proof Hout as Hcalc. unfold PolicyA.probabilities, PolicyA.calculate_probabilities in Hcalc.
  set (V := length (PolicyA.counts tokens (n - 1))) in Hcalc.
  set (pc := get_default gram_eq_dec (PolicyA.counts tokens (n - 1)) (prefix g1)).
  destruct (counts_prefix_dominance tokens n g2 c2 Hn H2) as [c' [Hc' Hle]].
  assert (Hpc : c' = pc) by (unfold pc; rewrite Hpre; unfold get_default; rewrite Hc'; reflexivity).
  exists out, (PolicyA.score (PolicyA.prob c1 pc V)), (PolicyA.score (PolicyA.prob c2 pc V)).
  split; [exact Hout|]. split; [|split].
  - rewrite (PolicyAFacts.calc_items_get _ _ _ _ g1 Hcalc), H1. reflexivity.
  - rewrite (PolicyAFacts.calc_items_get _ _ _ _ g2 Hcalc), H2, <- Hpre. reflexivity.
  - apply score_lt; [apply PolicyAFacts.prob_pos; lia | apply prob_lt; lia].
Qed.

Lemma policyA_score_antitone_witness :
  exists out s1 s2,
    PolicyA.probabilities ["a"; "b"; "a"; "b"; "a"; "c"]%string 2 = Some out /\
    get gram_eq_dec out ["a"; "c"]%string = Some s1 /\
    get gram_eq_dec out ["a"; "b"]%string = Some s2 /\ (s2 < s1)%R.
Proof.
  exact (policyA_score_antitone ["a"; "b"; "a"; "b"; "a"; "c"]%string 2
           ["a"; "c"]%string ["a"; "b"]%string 1 2
           ltac:(lia) ltac:(vm_compute; reflexivity) ltac:(vm_compute; reflexivity)
           eq_refl ltac:(lia)).
Defined.

(** ** JSON keys *)

Lemma dict_set_fresh {K V : Type} (eq_dec : forall x y : K, {x = y} + {x <> y})
      (d : list (K * V)) k v :
  ~ In k (map fst d) -> dict_set eq_dec d k v = d ++ [(k, v)].
Proof.
  induction d as [|[k' v'] r IH]; simpl; intro H; [reflexivity|].
  destruct (eq_dec k' k) as [->|]; [exfalso; apply H; left; reflexivity|].
  rewrite IH by (intro; apply H; right; assumption). reflexivity.
Qed.

Lemma dict_of_items_NoDup {K V : Type} (eq_dec : forall x y : K, {x = y} + {x <> y})
      (items : list (K * V)) :
  NoDup (map fst items) -> dict_of_items eq_dec items = items.
Proof.
  unfold dict_of_items.
  assert (H : forall acc, NoDup (map fst (acc ++ items)) ->
            fold_left (fun acc kv => dict_set eq_dec acc (fst kv) (snd kv)) items acc = acc ++ items).
  { induction items as [|kv r IH]; intros acc Hnd; simpl; [symmetry; apply app_nil_r|].
    rewrite map_app in Hnd. simpl in Hnd.
    pose proof (NoDup_remove_2 _ _ _ Hnd) as Hk.
    rewrite dict_set_fresh by (intro; apply Hk, in_or_app; left; assumption).
    destruct kv as [k v]. rewrite IH; [rewrite <- app_assoc; reflexivity|].
    rewrite <- app_assoc, map_app. exact Hnd. }
  intro Hnd. apply (H []). exact Hnd.
Qed.

Lemma NoDup_map_inj_in {A B : Type} (f : A -> B) (l : list A) :
  (forall x y, In x l -> In y l -> f x = f y -> x = y) -> NoDup l -> NoDup (map f l).
Proof.
  induction l as [|x l IH]; simpl; intros Hinj Hnd; [constructor|].
  inversion Hnd as [|? ? Hx Hl]; subst. constructor.
  - intro Hin. apply in_map_iff in Hin as [y [Hy Hyl]].
    apply Hx. rewrite (Hinj x y (or_introl eq_refl) (or_intror Hyl) (eq_sym Hy)). exact Hyl.
  - apply IH; [intros a b Ha Hb; apply Hinj; right; assumption | exact Hl].
Qed.

Lemma render_map {V : Type} (d : list (gram * V)) :
  NoDup (map fst d) ->
  (forall g1 g2, In g1 (map fst d) -> In g2 (map fst d) ->
                 ngram_to_string g1 = ngram_to_string g2 -> g1 = g2) ->
  render d = map (fun kv => (ngram_to_string (fst kv), snd kv)) d.
Proof.
  intros Hnd Hinj. unfold render. apply dict_of_items_NoDup.
  rewrite map_map. simpl. rewrite <- (map_map fst ngram_to_string).
  apply NoDup_map_inj_in; assumption.
Qed.

Lemma app_space_inj (a b s t : string) :
  no_space a = true -> no_space b = true ->
  (a ++ String space_char s = b ++ String space_char t)%string -> a = b /\ s = t.
Proof.
  revert b. induction a as [|x a IH]; intros b Ha Hb E; destruct b as [|y b]; simpl in E.
  - injection E as ->. split; reflexivity.
  - injection E as Ey _. subst y. simpl in Hb. discriminate.
  - injection E as Ex _. subst x. simpl in Ha. discriminate.
  - injection E as -> E. simpl in Ha, Hb.
    apply andb_prop in Ha as [_ Ha]. apply andb_prop in Hb as [_ Hb].
    destruct (IH b Ha Hb E) as [-> ->]. split; reflexivity.
Qed.

(** Joining with a space is injective on grams of one length whose
    tokens have no space. *)
Lemma ngram_to_string_inj (g1 g2 : gram) :
  Forall (fun t => no_space t = true) g1 -> Forall (fun t => no_space t = true) g2 ->
  length g1 = length g2 -> ngram_to_string g1 = ngram_to_string g2 -> g1 = g2.
Proof.
  unfold ngram_to_string. revert g2.
  induction g1 as [|a r1 IH]; intros g2 H1 H2 Hl E; destruct g2 as [|b r2]; try discriminate;
    [reflexivity|].
  inversion H1 as [|? ? Ha Hr1]; inversion H2 as [|? ? Hb Hr2]; subst.
  simpl in Hl. injection Hl as Hl.
  destruct r1 as [|a' r1]; destruct r2 as [|b' r2]; try discriminate.
  - simpl in E. subst. reflexivity.
  - change (String.concat " " (a :: a' :: r1)) with (a ++ " " ++ String.concat " " (a' :: r1))%string in E.
    change (String.concat " " (b :: b' :: r2)) with (b ++ " " ++ String.concat " " (b' :: r2))%string in E.
    destruct (app_space_inj a b _ _ Ha Hb E) as [-> E'].
    f_equal. apply IH; simpl; auto.
Qed.

Lemma In_firstn_l {A : Type} (k : nat) (l : list A) x : In x (firstn k l) -> In x l.
Proof. intro H. rewrite <- (firstn_skipn k l). apply in_or_app. left. exact H. Qed.

Lemma In_skipn_l {A : Type} (k : nat) (l : list A) x : In x (skipn k l) -> In x l.
Proof. intro H. rewrite <- (firstn_skipn k l). apply in_or_app. right. exact H. Qed.

Lemma In_build_ngrams_tokens (tokens : list token) (n : nat) (g : gram) t :
  In g (build_ngrams tokens n) -> In t g -> In t tokens.
Proof.
  unfold build_ngrams. intros H Ht. apply in_map_iff in H as [i [<- _]].
  unfold slice in Ht. apply In_firstn_l, In_skipn_l in Ht. exact Ht.
Qed.

Lemma counts_keys_inj (tokens : list token) (n : nat) :
  Forall (fun t => no_space t = true) tokens ->
  forall g1 g2, In g1 (map fst (PolicyA.counts tokens n)) -> In g2 (map fst (PolicyA.counts tokens n)) ->
  ngram_to_string g1 = ngram_to_string g2 -> g1 = g2.
Proof.
  intros Hsp g1 g2 H1 H2. apply in_map_iff in H1 as [[k1 c1] [<- H1]].
  apply in_map_iff in H2 as [[k2 c2] [<- H2]].
  destruct (counts_In _ _ _ _ H1) as [B1 [L1 _]]. destruct (counts_In _ _ _ _ H2) as [B2 [L2 _]].
  simpl. apply ngram_to_string_inj; [| | congruence].
  - apply Forall_forall. intros t Ht. rewrite Forall_forall in Hsp.
    exact (Hsp t (In_build_ngrams_tokens _ _ _ _ B1 Ht)).
  - apply Forall_forall. intros t Ht. rewrite Forall_forall in Hsp.
    exact (Hsp t (In_build_ngrams_tokens _ _ _ _ B2 Ht)).
Qed.

Lemma calc_items_keys items lower V out :
  PolicyA.calc_items items lower V = Some out -> map fst out = map fst items.
Proof.
  revert out. induction items as [|[g c] r IH]; simpl; intros out H.
  - injection H as <-. reflexivity.
  - destruct (Nat.eqb _ 0); [discriminate|].
    destruct (PolicyA.calc_items r lower V) as [ps|] eqn:E; [|discriminate].
    injection H as <-. simpl. rewrite (IH ps eq_refl). reflexivity.
Qed.

(** X5. When no token contains a space, the JSON objects written by
    [process_corpus] lose nothing to the [" ".join] of the keys: the counts
    file of order [n] holds every gram under its joined key with its count,
    in table order, and the log-probability file has exactly the same keys
    in the same order. *)
Theorem process_corpus_json_keys (tokens : list token) (n : nat) :
  Forall (fun t => no_space t = true) tokens ->
  Output.counts_json tokens n =
    map (fun kv => (ngram_to_string (fst kv), snd kv)) (PolicyA.counts tokens n) /\
  NoDup (map fst (Output.counts_json tokens n)) /\
  (1 <= n -> exists lp, Output.logproba_json tokens n = Some lp /\
                        map fst lp = map fst (Output.counts_json tokens n)).
Proof.
  intro Hsp.
  assert (Hnd : NoDup (map fst (PolicyA.counts tokens n))) by apply (NoDup_keys_Counter _ gram_eq_dec).
  assert (Hj : Output.counts_json tokens n =
               map (fun kv => (ngram_to_string (fst kv), snd kv)) (PolicyA.counts tokens n)).
  { apply render_map; [exact Hnd | apply counts_keys_inj, Hsp]. }
  split; [exact Hj | split].
  - rewrite Hj, map_map. simpl. rewrite <- (map_map fst ngram_to_string).
    apply NoDup_map_inj_in; [apply counts_keys_inj, Hsp | exact Hnd].
  - intro Hn. destruct (counts_probabilities_some tokens n Hn) as [out Hout].
    assert (Hk : map fst out = map fst (PolicyA.counts tokens n))
      by exact (calc_items_keys _ _ _ _ Hout).
    exists (render out). split; [unfold Output.logproba_json; rewrite Hout; reflexivity|].
    rewrite render_map.
    + rewrite Hj, !map_map. simpl. rewrite <- (map_map fst ngram_to_string), Hk.
      rewrite map_map. reflexivity.
    + rewrite Hk. exact Hnd.
    + rewrite Hk. apply counts_keys_inj, Hsp.
Qed.

Lemma process_corpus_json_keys_witness :
  Output.counts_json ["a"; "b"; "a"]%string 2 = [("a b"%string, 1); ("b a"%string, 1)].
Proof.
  rewrite (proj1 (process_corpus_json_keys ["a"; "b"; "a"]%string 2
                    ltac:(repeat constructor))).
  vm_compute. reflexivity.
Defined.

Lemma render_keys {V : Type} (d : list (gram * V)) :
  NoDup (map fst d) ->
  (forall g1 g2, In g1 (map fst d) -> In g2 (map fst d) ->
                 ngram_to_string g1 = ngram_to_string g2 -> g1 = g2) ->
  map fst (render d) = map ngram_to_string (map fst d).
Proof. intros Hnd Hinj. rewrite render_map by assumption. rewrite !map_map. reflexivity. Qed.

Lemma render_singletons {V W : Type} (f : V -> W) (d : list (token * V)) :
  NoDup (map fst d) ->
  render (map (fun wc => ([fst wc], f (snd wc))) d) = map (fun wc => (fst wc, f (snd wc))) d.
Proof.
  intro Hnd. rewrite render_map.
  - rewrite map_map. reflexivity.
  - induction d as [|[w c] r IH]; simpl; [constructor|].
    inversion Hnd as [|? ? Hw Hr]; subst. constructor; [|exact (IH Hr)].
    intro Hin. apply in_map_iff in Hin as [[g c'] [E Hin]]. simpl in E. subst g.
    apply in_map_iff in Hin as [[w' c''] [E Hin]]. injection E as ->.
    apply Hw. apply in_map_iff. exists (w, c''). split; [reflexivity | exact Hin].
  - intros g1 g2 H1 H2 E. rewrite map_map in H1, H2.
    apply in_map_iff in H1 as [[a ?] [<- _]]. apply in_map_iff in H2 as [[b ?] [<- _]].
    simpl in E |- *. unfold ngram_to_string in E. simpl in E. subst. reflexivity.
Qed.

(** X6. When no token contains a space, the JSON files of
    [process_language] keep every table entry: [1gram.json] is the unigram
    FreqDist keyed by the word itself, [{n}gram.json] for [n >= 2] holds
    each n-gram under [ngram_to_string] with its count, in table order,
    and [prob_{n}gram.json] has exactly the keys of [{n}gram.json], in the
    same order. *)
Theorem process_language_json_keys (tokens : list token) (n : nat) :
  Forall (fun t => no_space t = true) tokens ->
  Output.ngram_freqs tokens 1 = PolicyB.unigrams tokens /\
  (2 <= n -> Output.ngram_freqs tokens n =
             map (fun kv => (ngram_to_string (fst kv), snd kv)) (PolicyB.freq tokens n)) /\
  (1 <= n -> map fst (Output.ngram_probs_json tokens n) = map fst (Output.ngram_freqs tokens n)).
Proof.
  intro Hsp.
  assert (Hu : NoDup (map fst (PolicyB.unigrams tokens))) by apply (NoDup_keys_Counter _ string_dec).
  assert (H1 : Output.ngram_freqs tokens 1 = PolicyB.unigrams tokens).
  { simpl. rewrite (render_singletons (fun c => c)) by exact Hu.
    assert (Hid : forall l : list (token * nat), map (fun wc => (fst wc, snd wc)) l = l)
      by (induction l as [|[w c] r IH]; simpl; congruence).
    apply Hid. }
  split; [exact H1 | split].
  - intro Hn. destruct n as [|[|n]]; [lia | lia |].
    apply render_map; [apply (NoDup_keys_Counter _ gram_eq_dec) | apply counts_keys_inj, Hsp].
  - intro Hn. destruct n as [|[|n]]; [lia | |].
    + rewrite H1. unfold Output.ngram_probs_json. simpl PolicyB.ngram_probs.
      unfold PolicyB.unigram_probs.
      rewrite (map_ext (fun '(w, count) => ([w], PolicyB.div_or_zero count (sum_values (PolicyB.unigrams tokens))))
                       (fun wc => ([fst wc], PolicyB.div_or_zero (snd wc) (sum_values (PolicyB.unigrams tokens)))))
        by (intros [w c]; reflexivity).
      pose proof (render_singletons
                    (fun c => PolicyB.div_or_zero c (sum_values (PolicyB.unigrams tokens))) _ Hu) as R.
      cbv beta in R. rewrite R, map_map. reflexivity.
    + unfold Output.ngram_probs_json. rewrite ngram_probs_counts by lia.
      set (F := PolicyB.freq tokens (S (S n))).
      assert (HF : map fst (map (fun kv => (fst kv, PolicyB.div_or_zero (snd kv)
                     (count_occ gram_eq_dec (build_ngrams tokens (S (S n) - 1)) (prefix (fst kv))))) F)
                   = map fst F) by (rewrite map_map; reflexivity).
      assert (HndF : NoDup (map fst F)) by apply (NoDup_keys_Counter _ gram_eq_dec).
      assert (HinjF := counts_keys_inj tokens (S (S n)) Hsp).
      rewrite render_keys; rewrite ?HF; [| exact HndF | exact HinjF].
      change (Output.ngram_freqs tokens (S (S n))) with (render F).
      rewrite render_keys by assumption. reflexivity.
Qed.

Lemma process_language_json_keys_witness :
  Output.ngram_freqs ["a"; "b"; "a"]%string 2 = [("a b"%string, 1); ("b a"%string, 1)].
Proof.
  rewrite (proj1 (proj2 (process_language_json_keys ["a"; "b"; "a"]%string 2
                           ltac:(repeat constructor))) ltac:(lia)).
  vm_compute. reflexivity.
Defined.

(** ** Tokenizer *)

Module TokenizeFacts.
Import Normalize Tokenize NormalizeFacts NormalizeShape.
Open Scope N_scope.

Lemma is_space_range c : is_space c = true -> c <= 32 \/ 133 <= c.
Proof.
  unfold is_space. intro H.
  repeat (apply orb_true_iff in H; destruct H as [H|H]);
    first [apply andb_true_iff in H as [H1 H2]; apply N.leb_le in H1, H2; lia
          | apply N.eqb_eq in H; lia].
Qed.

Lemma lower_space c : is_space (lower c) = is_space c.
Proof.
  unfold lower. destruct ((65 <=? c) && (c <=? 90)) eqn:E; [|reflexivity].
  apply andb_true_iff in E as [E1 E2]. apply N.leb_le in E1, E2.
  destruct (is_space (c + 32)) eqn:H1; [apply is_space_range in H1; lia|].
  destruct (is_space c) eqn:H2; [apply is_space_range in H2; lia | reflexivity].
Qed.

Lemma no_double_space_map_lower l : no_double_space (map lower l) = no_double_space l.
Proof.
  induction l as [|a [|b r] IH]; [reflexivity | reflexivity|].
  change (map lower (a :: b :: r)) with (lower a :: lower b :: map lower r).
  rewrite !no_double_space_cons2, !lower_space.
  change (lower b :: map lower r) with (map lower (b :: r)). rewrite IH. reflexivity.
Qed.

Lemma split_aux_nonempty cur l : cur <> [] -> split_aux cur l <> [].
Proof.
  revert cur. induction l as [|c r IH]; intros cur H; simpl.
  - destruct cur; [contradiction | discriminate].
  - destruct (is_space c); [destruct cur; [contradiction | discriminate]|].
    apply IH. discriminate.
Qed.

Lemma split_aux_join cur l :
  (forall c, In c l -> is_space c = true -> c = 32) ->
  no_double_space l = true -> ends_nonspace l ->
  (cur = [] -> starts_nonspace l) ->
  join (split_aux cur l) = rev cur ++ l.
Proof.
  revert cur. induction l as [|c r IH]; intros cur H32 Hnd Hend Hst; simpl.
  - destruct cur as [|x cur]; [reflexivity|]. simpl. rewrite app_nil_r. reflexivity.
  - destruct (is_space c) eqn:Hc.
    + destruct cur as [|x cur]; [specialize (Hst eq_refl); simpl in Hst; congruence|].
      assert (Ec : c = 32) by (apply H32; [left; reflexivity | exact Hc]).
      destruct r as [|d r'].
      * exfalso. specialize (Hend [] c eq_refl). congruence.
      * assert (Hd : is_space d = false).
        { rewrite no_double_space_cons2, Hc in Hnd. simpl in Hnd.
          destruct (is_space d); [discriminate | reflexivity]. }
        assert (Hr : join (split_aux [] (d :: r')) = d :: r').
        { apply IH.
          - intros e He. apply H32. right. exact He.
          - rewrite no_double_space_cons2 in Hnd. apply andb_true_iff in Hnd as [_ Hnd]. exact Hnd.
          - intros l1 e E. apply (Hend (c :: l1) e). rewrite E. reflexivity.
          - intros _. exact Hd. }
        destruct (split_aux [] (d :: r')) as [|w ws] eqn:Es.
        { exfalso. simpl in Es. rewrite Hd in Es. exact (split_aux_nonempty [d] r' ltac:(discriminate) Es). }
        change (join (rev (x :: cur) :: w :: ws)) with (rev (x :: cur) ++ 32 :: join (w :: ws)).
        rewrite Hr, Ec. reflexivity.
    + rewrite IH.
      * simpl. rewrite <- app_assoc. reflexivity.
      * intros e He. apply H32. right. exact He.
      * destruct r as [|d r']; [reflexivity|].
        rewrite no_double_space_cons2 in Hnd. apply andb_true_iff in Hnd as [_ Hnd]. exact Hnd.
      * intros l1 e E. apply (Hend (c :: l1) e). rewrite E. reflexivity.
      * discriminate.
Qed.

Lemma split_aux_words cur l w :
  (forall c, In c cur -> is_space c = false) ->
  In w (split_aux cur l) -> w <> [] /\ forall c, In c w -> is_space c = false.
Proof.
  revert cur. induction l as [|c r IH]; intros cur Hcur Hw; simpl in Hw.
  - destruct cur as [|x cur]; [destruct Hw|]. destruct Hw as [<-|[]].
    split; [intro E; apply (f_equal (@length N)) in E; rewrite length_rev in E; discriminate|].
    intros e He. apply Hcur. apply in_rev. exact He.
  - destruct (is_space c) eqn:Hc.
    + destruct cur as [|x cur]; [exact (IH [] ltac:(intros ? []) Hw)|].
      destruct Hw as [<-|Hw]; [|exact (IH [] ltac:(intros ? []) Hw)].
      split; [intro E; apply (f_equal (@length N)) in E; rewrite length_rev in E; discriminate|].
      intros e He. apply Hcur. apply in_rev. exact He.
    + apply (IH (c :: cur)); [|exact Hw].
      intros e [<-|He]; [exact Hc | exact (Hcur e He)].
Qed.

Lemma ends_nonspace_map_lower l : ends_nonspace l -> ends_nonspace (map lower l).
Proof.
  intros H l1 c E. apply map_eq_app in E as [l1' [l2' [-> [_ E2]]]].
  destruct l2' as [|d [|]]; try discriminate. injection E2 as <-.
  rewrite lower_space. exact (H l1' d eq_refl).
Qed.

End TokenizeFacts.

(** X7. On the text produced by [clean_text], [tokenize] loses nothing but
    case: every token is a non-empty run of non-whitespace characters, and
    joining the tokens with single spaces gives back the lowercased text. *)
Theorem tokenize_clean_text (x : Normalize.text) :
  let ts := Tokenize.tokenize (Normalize.clean_text x) in
  (forall w, In w ts -> w <> [] /\ forall c, In c w -> Normalize.is_space c = false) /\
  Tokenize.join ts = map Tokenize.lower (Normalize.clean_text x).
Proof.
  cbv zeta. destruct (NormalizeShape.clean_text_shape x) as [_ [H32 [Hnd [Hst Hend]]]].
  set (y := Normalize.clean_text x) in *.
  split.
  - intros w Hw. exact (TokenizeFacts.split_aux_words [] _ w (fun _ H => match H with end) Hw).
  - unfold Tokenize.tokenize, Tokenize.split. apply TokenizeFacts.split_aux_join.
    + intros c Hc Hsp. apply in_map_iff in Hc as [d [<- Hd]].
      rewrite TokenizeFacts.lower_space in Hsp. rewrite (H32 d Hd Hsp). reflexivity.
    + rewrite TokenizeFacts.no_double_space_map_lower. exact Hnd.
    + apply TokenizeFacts.ends_nonspace_map_lower, Hend.
    + intros _. destruct y as [|c r]; [exact I|]. simpl. rewrite TokenizeFacts.lower_space. exact Hst.
Qed.

(** ** Reading the sentence files *)

Lemma break_at_spec (d : N) (l b a : Normalize.text) :
  Normalize.break_at d l = Some (b, a) -> l = b ++ d :: a.
Proof.
  revert b. induction l as [|c r IH]; intros b H; simpl in H; [discriminate|].
  destruct (N.eqb_spec c d) as [->|]; [injection H as <- <-; reflexivity|].
  destruct (Normalize.break_at d r) as [[b' a']|] eqn:E; [|discriminate].
  injection H as <- <-. rewrite (IH b' eq_refl). reflexivity.
Qed.

Lemma read_line_length line :
  length (Driver.read_line line) = if blank_line line then 0 else 1.
Proof.
  unfold Driver.read_line, blank_line.
  destruct (Normalize.strip line) as [|c r]; [reflexivity|].
  destruct (Normalize.break_at 9 (c :: r)) as [[b a]|]; reflexivity.
Qed.

Lemma read_line_sentence line s :
  In s (Driver.read_line line) -> s <> [] /\ Normalize.ends_nonspace s.
Proof.
  unfold Driver.read_line.
  assert (Hend : Normalize.ends_nonspace (Normalize.strip line))
    by (intros l1 c E; exact (NormalizeFacts.rstrip_ends _ _ _ E)).
  destruct (Normalize.strip line) as [|c r] eqn:Es; [intros []|].
  destruct (Normalize.break_at 9 (c :: r)) as [[b a]|] eqn:Eb; intros [<-|[]].
  - apply break_at_spec in Eb.
    split.
    + intros ->. specialize (Hend b 9%N Eb). discriminate.
    + intros l1 e E. apply (Hend (b ++ 9%N :: l1) e). rewrite Eb, E, <- app_assoc. reflexivity.
  - split; [discriminate | exact Hend].
Qed.

(** X8. [read_sentences_file] on a present file returns one sentence per
    line that is not blank after [strip()], and every sentence is
    non-empty and ends with a non-whitespace character (also the part
    after the first tab). *)
Theorem read_sentences_shape (files : Driver.fs) (p : Driver.path) (lines : list Normalize.text) :
  files p = Some lines ->
  exists ss, Driver.read_sentences_file files p = ([], ss) /\
    length ss = length (filter (fun line => negb (blank_line line)) lines) /\
    (forall s, In s ss -> s <> [] /\ Normalize.ends_nonspace s).
Proof.
  intro Hp. unfold Driver.read_sentences_file. rewrite Hp.
  eexists. split; [reflexivity | split].
  - clear Hp. induction lines as [|line r IH]; [reflexivity|].
    simpl. rewrite length_app, read_line_length, IH.
    destruct (blank_line line); reflexivity.
  - intros s Hs. apply in_flat_map in Hs as [line [_ Hs]]. exact (read_line_sentence line s Hs).
Qed.

Lemma read_sentences_shape_witness :
  exists ss, Driver.read_sentences_file sample_files "eng.txt"%string = ([], ss) /\
    length ss = length (filter (fun line => negb (blank_line line)) [[49; 9; 104; 105]%N]) /\
    (forall s, In s ss -> s <> [] /\ Normalize.ends_nonspace s).
Proof. apply read_sentences_shape. reflexivity. Defined.

Lemma flat_map_read_line_nil lines :
  flat_map Driver.read_line lines = [] <-> forallb blank_line lines = true.
Proof.
  induction lines as [|line r IH]; simpl; [split; reflexivity|].
  rewrite andb_true_iff, <- IH. split.
  - intro H. apply app_eq_nil in H as [H1 H2]. split; [|exact H2].
    pose proof (read_line_length line) as L. rewrite H1 in L.
    destruct (blank_line line); [reflexivity | discriminate].
  - intros [H1 H2]. rewrite H2, app_nil_r.
    pose proof (read_line_length line) as L. rewrite H1 in L.
    destruct (Driver.read_line line); [reflexivity | discriminate].
Qed.

(** X9. For a present file, the language's entry of the main loop writes
    all twelve artifacts, in order, when at least one line is not blank,
    and otherwise only reports that no sentence was found. *)
Theorem process_language_outcome (files : Driver.fs) (l : Driver.lang) (p : Driver.path)
        (lines : list Normalize.text) :
  files p = Some lines ->
  Driver.main_entry files (l, p) =
    if forallb blank_line lines then [Driver.No_sentences l]
    else map (Driver.Write l) Driver.artifacts.
Proof.
  intro Hp. unfold Driver.main_entry, Driver.process_language, Driver.read_sentences_file.
  rewrite Hp. simpl app.
  destruct (forallb blank_line lines) eqn:E.
  - apply flat_map_read_line_nil in E. rewrite E. reflexivity.
  - destruct (flat_map Driver.read_line lines) eqn:F; [|reflexivity].
    apply flat_map_read_line_nil in F. congruence.
Qed.

Lemma process_language_outcome_witness :
  Driver.main_entry sample_files ("english", "eng.txt")%string =
    map (Driver.Write "english"%string) Driver.artifacts.
Proof.
  exact (process_language_outcome sample_files "english"%string "eng.txt"%string
           [[49; 9; 104; 105]%N] eq_refl).
Defined.

(** ** Vocabulary *)

Lemma counts_length_le (tokens : list token) (n : nat) :
  length (PolicyA.counts tokens n) <= length tokens + 1 - n.
Proof.
  rewrite <- build_ngrams_length.
  unfold PolicyA.counts. change (counter_update gram_eq_dec [] (build_ngrams tokens n))
    with (Counter gram_eq_dec (build_ngrams tokens n)).
  rewrite <- (sum_values_Counter _ gram_eq_dec (build_ngrams tokens n)). apply length_le_sum_values.
  intros [g c] H. exact (proj2 (proj2 (proj2 (counts_In _ _ _ _ H)))).
Qed.

Module VocabFacts.
Import Vocab.

Lemma insert_perm s l : Permutation (insert s l) (s :: l).
Proof.
  induction l as [|x r IH]; simpl; [reflexivity|].
  destruct (String.leb s x); [reflexivity|].
  rewrite IH. apply perm_swap.
Qed.

Lemma sort_perm l : Permutation (sort l) l.
Proof.
  induction l as [|x r IH]; simpl; [reflexivity|].
  rewrite insert_perm, IH. reflexivity.
Qed.

Lemma insert_hdrel x s l :
  HdRel (fun a b => String.leb a b = true) x l -> (fun a b => String.leb a b = true) x s -> HdRel (fun a b => String.leb a b = true) x (insert s l).
Proof.
  intros H Hxs. destruct l as [|y r]; simpl; [constructor; exact Hxs|].
  destruct (String.leb s y); constructor; [exact Hxs | inversion H; assumption].
Qed.

Lemma insert_sorted s l : Sorted (fun a b => String.leb a b = true) l -> Sorted (fun a b => String.leb a b = true) (insert s l).
Proof.
  induction l as [|x r IH]; intro H; simpl; [repeat constructor|].
  destruct (String.leb s x) eqn:E.
  - constructor; [exact H | constructor; exact E].
  - apply Sorted_inv in H as [Hr Hx]. constructor; [exact (IH Hr)|].
    apply insert_hdrel; [exact Hx|].
    destruct (String.leb_total s x) as [E'|E']; [congruence | exact E'].
Qed.

Lemma sort_sorted l : Sorted (fun a b => String.leb a b = true) (sort l).
Proof. induction l as [|x r IH]; simpl; [constructor | apply insert_sorted, IH]. Qed.

Lemma vocab_NoDup tokens : NoDup (vocab tokens).
Proof.
  unfold vocab. apply (Permutation_NoDup (Permutation_sym (sort_perm _))), NoDup_nodup.
Qed.

Lemma vocab_In tokens w : In w (vocab tokens) <-> In w tokens.
Proof.
  unfold vocab. split; intro H.
  - apply (nodup_In string_dec). exact (Permutation_in _ (sort_perm _) H).
  - apply (Permutation_in _ (Permutation_sym (sort_perm _))). apply nodup_In. exact H.
Qed.

Lemma combine_fst {A B : Type} (l1 : list A) (l2 : list B) :
  length l1 = length l2 -> map fst (combine l1 l2) = l1 /\ map snd (combine l1 l2) = l2.
Proof.
  revert l2. induction l1 as [|a l1 IH]; intros [|b l2] H; simpl in *; try discriminate;
    [split; reflexivity|].
  injection H as H. destruct (IH l2 H) as [-> ->]. split; reflexivity.
Qed.

Lemma In_combine_seq {A : Type} (v : list A) k i w :
  In (i, w) (combine (seq k (length v)) v) <-> k <= i /\ nth_error v (i - k) = Some w.
Proof.
  revert k. induction v as [|a v IH]; intro k; simpl.
  - split; [intros []|]. intros [_ H]. destruct (i - k); discriminate.
  - rewrite IH. split.
    + intros [[= -> ->]|[Hk Hn]]; [rewrite Nat.sub_diag; split; [lia | reflexivity]|].
      split; [lia|]. replace (i - k) with (S (i - S k)) by lia. exact Hn.
    + intros [Hk Hn]. destruct (Nat.eq_dec i k) as [->|Hne].
      * left. rewrite Nat.sub_diag in Hn. injection Hn as ->. reflexivity.
      * right. split; [lia|]. replace (i - k) with (S (i - S k)) in Hn by lia. exact Hn.
Qed.

Lemma In_enumerate {A : Type} (v : list A) i w :
  In (i, w) (enumerate v) <-> nth_error v i = Some w.
Proof.
  unfold enumerate. rewrite In_combine_seq, Nat.sub_0_r. split; [intros [_ H]; exact H | split; [lia | exact H]].
Qed.

Lemma vocab_rev_eq tokens : vocab_rev tokens = enumerate (vocab tokens).
Proof.
  unfold vocab_rev. apply dict_of_items_NoDup. unfold enumerate.
  rewrite (proj1 (combine_fst _ _ (length_seq _ _))). apply seq_NoDup.
Qed.

Lemma vocab_dict_eq tokens :
  vocab_dict tokens = map (fun iw => (snd iw, fst iw)) (enumerate (vocab tokens)).
Proof.
  unfold vocab_dict. apply dict_of_items_NoDup. rewrite map_map. simpl.
  unfold enumerate. rewrite <- (map_map snd (fun w => w)), map_id.
  rewrite (proj2 (combine_fst _ _ (length_seq _ _))). apply vocab_NoDup.
Qed.

Lemma vocab_position tokens i w :
  nth_error (vocab tokens) i = Some w ->
  get Nat.eq_dec (vocab_rev tokens) i = Some w /\ get string_dec (vocab_dict tokens) w = Some i.
Proof.
  intro H. apply In_enumerate in H. split.
  - rewrite vocab_rev_eq. apply (In_get_NoDup _ Nat.eq_dec); [|exact H].
    unfold enumerate. rewrite (proj1 (combine_fst _ _ (length_seq _ _))). apply seq_NoDup.
  - rewrite vocab_dict_eq. apply (In_get_NoDup _ string_dec).
    + rewrite map_map. simpl. unfold enumerate. rewrite <- (map_map snd (fun w => w)), map_id.
      rewrite (proj2 (combine_fst _ _ (length_seq _ _))). apply vocab_NoDup.
    + apply in_map_iff. exists (i, w). split; [reflexivity | exact H].
Qed.

Lemma get_In_pair {K V : Type} eq_dec (d : list (K * V)) k v :
  get eq_dec d k = Some v -> In (k, v) d.
Proof.
  induction d as [|[k' v'] r IH]; simpl; [discriminate|].
  destruct (eq_dec k' k) as [->|]; [intros [= ->]; left; reflexivity | intro H; right; exact (IH H)].
Qed.

Lemma vocab_rev_get tokens i w :
  get Nat.eq_dec (vocab_rev tokens) i = Some w -> nth_error (vocab tokens) i = Some w.
Proof. rewrite vocab_rev_eq. intro H. apply In_enumerate, (get_In_pair Nat.eq_dec), H. Qed.

Lemma vocab_dict_get tokens w i :
  get string_dec (vocab_dict tokens) w = Some i -> nth_error (vocab tokens) i = Some w.
Proof.
  rewrite vocab_dict_eq. intro H. apply get_In_pair, in_map_iff in H as [[i' w'] [[= <- <-] Hin]].
  apply In_enumerate, Hin.
Qed.

Lemma vocab_length tokens : length (vocab tokens) = length (nodup string_dec tokens).
Proof. unfold vocab. apply Permutation_length, sort_perm. Qed.

End VocabFacts.

(** X11. [vocab = sorted(set(tokens))] lists every distinct token exactly
    once, in ascending code-point order. *)
Theorem vocab_sorted_set (tokens : list token) :
  Sorted (fun a b => String.leb a b = true) (Vocab.vocab tokens) /\
  NoDup (Vocab.vocab tokens) /\
  (forall w, In w (Vocab.vocab tokens) <-> In w tokens).
Proof.
  split; [apply VocabFacts.sort_sorted | split; [apply VocabFacts.vocab_NoDup | apply VocabFacts.vocab_In]].
Qed.

(** X12. [vocab_dict] and [vocab_rev] are inverse bijections between the
    distinct tokens and the indices [0 .. len(vocab) - 1]: every token has an
    index below [len(vocab)] that [vocab_rev] maps back to it; every index
    below [len(vocab)] names a token that [vocab_dict] maps back to that
    index; the keys of [vocab_dict] are tokens with an index below
    [len(vocab)], the keys of [vocab_rev] are indices below [len(vocab)]
    naming tokens; and [len(vocab)] is the number of distinct tokens. *)
Theorem vocab_round_trip (tokens : list token) :
  (forall w, In w tokens -> exists i, i < length (Vocab.vocab tokens) /\
     get string_dec (Vocab.vocab_dict tokens) w = Some i /\
     get Nat.eq_dec (Vocab.vocab_rev tokens) i = Some w) /\
  (forall i, i < length (Vocab.vocab tokens) -> exists w, In w tokens /\
     get Nat.eq_dec (Vocab.vocab_rev tokens) i = Some w /\
     get string_dec (Vocab.vocab_dict tokens) w = Some i) /\
  (forall w i, get string_dec (Vocab.vocab_dict tokens) w = Some i ->
     In w tokens /\ i < length (Vocab.vocab tokens)) /\
  (forall i w, get Nat.eq_dec (Vocab.vocab_rev tokens) i = Some w ->
     In w tokens /\ i < length (Vocab.vocab tokens)) /\
  length (Vocab.vocab tokens) = length (nodup string_dec tokens).
Proof.
  assert (Hnth : forall i w, nth_error (Vocab.vocab tokens) i = Some w ->
                   In w tokens /\ i < length (Vocab.vocab tokens)).
  { intros i w H. split.
    - apply VocabFacts.vocab_In. exact (nth_error_In _ _ H).
    - apply nth_error_Some. congruence. }
  split; [|split; [|split; [|split]]].
  - intros w Hw. apply VocabFacts.vocab_In, In_nth_error in Hw as [i Hi].
    destruct (VocabFacts.vocab_position tokens i w Hi) as [H1 H2].
    exists i. split; [apply nth_error_Some; congruence | split; assumption].
  - intros i Hi. apply nth_error_Some in Hi.
    destruct (nth_error (Vocab.vocab tokens) i) as [w|] eqn:E; [|contradiction].
    exists w. split; [exact (proj1 (Hnth i w E)) | exact (VocabFacts.vocab_position tokens i w E)].
  - intros w i H. apply Hnth, VocabFacts.vocab_dict_get, H.
  - intros i w H. apply Hnth, VocabFacts.vocab_rev_get, H.
  - apply VocabFacts.vocab_length.
Qed.

Lemma In_keys_Counter {K : Type} (eq_dec : forall x y : K, {x = y} + {x <> y}) xs k :
  In k (map fst (Counter eq_dec xs)) <-> In k xs.
Proof.
  split.
  - intro H. apply in_map_iff in H as [[k' v] [<- H]].
    apply (In_Counter _ eq_dec) in H. rewrite get_Counter in H. simpl.
    apply (count_occ_In eq_dec).
    destruct (Nat.eqb_spec (count_occ eq_dec xs k') 0); [discriminate | lia].
  - intro H. apply (count_occ_In eq_dec) in H. assert (E := get_Counter _ eq_dec xs k).
    destruct (Nat.eqb_spec (count_occ eq_dec xs k) 0) as [|_]; [lia|].
    revert E. generalize (Counter eq_dec xs) as d. clear.
    induction d as [|[k' v] r IH]; simpl; [discriminate|].
    destruct (eq_dec k' k) as [->|]; intro E; [left; reflexivity | right; exact (IH E)].
Qed.

(** X13. The counts of [freq.json] are consistent: [vocabulary_size]
    equals [unigrams] (both are the number of distinct tokens), the
    unigram counts add up to [total_tokens], and an order-[n] table has at
    most [total_tokens - n + 1] entries. *)
Theorem freq_summary_consistent (tokens : list token) :
  let s := Vocab.summary tokens in
  Vocab.vocabulary_size s = Vocab.unigrams s /\
  sum_values (PolicyB.unigrams tokens) = Vocab.total_tokens s /\
  Vocab.unigrams s <= Vocab.total_tokens s /\
  Vocab.bigrams s <= Vocab.total_tokens s - 1 /\
  Vocab.trigrams s <= Vocab.total_tokens s - 2 /\
  Vocab.quadrigrams s <= Vocab.total_tokens s - 3 /\
  Vocab.pentagrams s <= Vocab.total_tokens s - 4.
Proof.
  cbv zeta. unfold Vocab.summary. cbn [Vocab.unigrams Vocab.bigrams Vocab.trigrams Vocab.quadrigrams
    Vocab.pentagrams Vocab.total_tokens Vocab.vocabulary_size].
  rewrite (freq_counts tokens 2), (freq_counts tokens 3), (freq_counts tokens 4),
    (freq_counts tokens 5).
  pose proof (counts_length_le tokens 2). pose proof (counts_length_le tokens 3).
  pose proof (counts_length_le tokens 4). pose proof (counts_length_le tokens 5).
  assert (Hsum : sum_values (PolicyB.unigrams tokens) = length tokens) by apply sum_values_Counter.
  assert (Hv : length (Vocab.vocab tokens) = length (PolicyB.unigrams tokens)).
  { rewrite <- (length_map fst (PolicyB.unigrams tokens)).
    apply Nat.le_antisymm; apply NoDup_incl_length.
    - apply VocabFacts.vocab_NoDup.
    - intros w Hw. apply In_keys_Counter, VocabFacts.vocab_In, Hw.
    - apply (NoDup_keys_Counter _ string_dec).
    - intros w Hw. apply VocabFacts.vocab_In, (In_keys_Counter string_dec), Hw. }
  assert (Hu : length (PolicyB.unigrams tokens) <= length tokens).
  { rewrite <- Hsum. apply length_le_sum_values. intros [w c] Hwc.
    apply (In_Counter _ string_dec) in Hwc. rewrite get_Counter in Hwc. simpl.
    destruct (Nat.eqb_spec (count_occ string_dec tokens w) 0); [discriminate|].
    injection Hwc as <-. lia. }
  repeat split; lia.
Qed.

(** ** Normalizer *)

(** X14. The texts [clean_text] leaves unchanged are exactly the texts of
    the allowed characters whose only whitespace is single U+0020 spaces
    between non-whitespace characters. *)
Theorem clean_text_fixed_iff (y : Normalize.text) :
  Normalize.clean_text y = y <->
  (forall c, In c y -> Normalize.allowed c = true) /\
  (forall c, In c y -> Normalize.is_space c = true -> c = 32%N) /\
  Normalize.no_double_space y = true /\ Normalize.starts_nonspace y /\ Normalize.ends_nonspace y.
Proof.
  split.
  - intro E. pose proof (NormalizeShape.clean_text_shape y) as H. cbv zeta in H.
    rewrite E in H. exact H.
  - intros [H1 [H2 [H3 [H4 H5]]]]. apply NormalizeShape.clean_text_fixed; assumption.
Qed.

Lemma break_at_first (d : N) (m l2 : Normalize.text) :
  ~ In d m -> Normalize.break_at d (m ++ d :: l2) = Some (m, l2).
Proof.
  induction m as [|c m IH]; intro H; simpl.
  - rewrite N.eqb_refl. reflexivity.
  - destruct (N.eqb_spec c d) as [->|]; [exfalso; apply H; left; reflexivity|].
    rewrite IH by (intro; apply H; right; assumption). reflexivity.
Qed.

Lemma sub_tags_fuel f1 f2 l :
  length l < f1 -> length l < f2 -> Normalize.sub_tags f1 l = Normalize.sub_tags f2 l.
Proof.
  revert f2 l. induction f1 as [|f1 IH]; intros f2 l H1 H2; [lia|].
  destruct f2 as [|f2]; [lia|]. destruct l as [|c r]; [reflexivity|]. simpl in H1, H2 |- *.
  destruct (c =? 60)%N; [|f_equal; apply IH; lia].
  destruct (Normalize.break_at 62 r) as [[[|x b] a]|] eqn:E; try (f_equal; apply IH; lia).
  apply break_at_spec in E. rewrite E in H1, H2. rewrite length_app in H1, H2. simpl in H1, H2.
  f_equal. apply IH; lia.
Qed.

(** X15. [re.sub(r"<[^>]+>", " ", text)] replaces a tag [<m>] with one
    space when [m] is non-empty and has no ['>'] and no ['<'] comes before
    it; the text before is kept and the rest is processed the same way. *)
Theorem sub_tags_removes_tag (l1 m l2 : Normalize.text) :
  ~ In 60%N l1 -> m <> [] -> ~ In 62%N m ->
  Normalize.run Normalize.sub_tags (l1 ++ 60%N :: m ++ 62%N :: l2) =
  l1 ++ 32%N :: Normalize.run Normalize.sub_tags l2.
Proof.
  intros H1 Hm H2. unfold Normalize.run.
  enough (H : forall f f2, length (l1 ++ 60%N :: m ++ 62%N :: l2) < f -> length l2 < f2 ->
            Normalize.sub_tags f (l1 ++ 60%N :: m ++ 62%N :: l2) =
            l1 ++ 32%N :: Normalize.sub_tags f2 l2) by (apply H; lia).
  induction l1 as [|c l1 IH]; intros f f2 Hf Hf2; destruct f as [|f]; try (simpl in Hf; lia).
  - simpl. rewrite break_at_first by exact H2. destruct m as [|x m]; [contradiction|].
    f_equal. apply sub_tags_fuel; [|exact Hf2]. simpl in Hf. rewrite length_app in Hf. simpl in Hf. lia.
  - simpl. destruct (N.eqb_spec c 60) as [->|]; [exfalso; apply H1; left; reflexivity|].
    f_equal. apply IH; [intro; apply H1; right; assumption | simpl in Hf; lia | exact Hf2].
Qed.

Lemma sub_tags_removes_tag_witness :
  Normalize.run Normalize.sub_tags [104; 60; 98; 62; 105]%N =
  [104]%N ++ 32%N :: Normalize.run Normalize.sub_tags [105]%N.
Proof.
  exact (sub_tags_removes_tag [104]%N [98]%N [105]%N
           ltac:(intros [E|[]]; discriminate) ltac:(discriminate) ltac:(intros [E|[]]; discriminate)).
Defined.
